(** * moron.js relation expressions: parser and containment queries

    A shallow embedding of [src/MoronRelationExpression.js] and the
    properties its specification states about it.

    Modelling conventions.
    - A JavaScript string is a [string]: a sequence of code units, here
      restricted to the 8-bit range.  [String.prototype.trim] removes the
      ECMAScript WhiteSpace and LineTerminator code units of that range.
    - Numbers that may become negative ([bracketDepth],
      [previousMatchIndex]) are [Z]; loop indices are [nat].
    - A [throw] is the [Throw] outcome; recursion that is not structural
      is driven by a fuel argument whose exhaustion is the separate
      outcome [OutOfFuel], shown below never to happen.
    - The parser builds its tree by pushing onto arrays it holds references
      to.  The store is the root array; a reference is the number of times
      one follows the [children] of the last element to reach the array. *)

From Stdlib Require Import String Ascii List ZArith NArith Lia Bool.
Import ListNotations.

Set Warnings "-register-all".

Local Open Scope string_scope.
Local Open Scope list_scope.

(* ------------------------------------------------------------------ *)
(** ** JavaScript values and string primitives *)

(** The values a caller can hand to [parse]: the primitive values, the
    [String] wrapper objects ([new String(s)], which hold a primitive
    string) and the objects that are not strings. *)
Inductive JsValue : Type :=
| JsUndefined
| JsNull
| JsBoolean (b : bool)
| JsNumber (z : Z)
| JsString (s : string)
| JsStringObject (s : string)
| JsObject (id : nat).

(** lodash [_.isString]: true of a primitive string and of a [String]
    object. *)
Definition isString (v : JsValue) : bool :=
  match v with
  | JsString _ | JsStringObject _ => true
  | _ => false
  end.

(** JavaScript truthiness, the negation of [!v]. *)
Definition truthy (v : JsValue) : bool :=
  match v with
  | JsUndefined | JsNull => false
  | JsBoolean b => b
  | JsNumber z => negb (Z.eqb z 0)
  | JsString s => negb (Nat.eqb (String.length s) 0)
  | JsStringObject _ => true
  | JsObject _ => true
  end.

(** WhiteSpace and LineTerminator code units below 256: TAB, LF, VT, FF,
    CR, SP, NBSP. *)
Definition isWhiteSpace (c : ascii) : bool :=
  let n := N_of_ascii c in
  (N.eqb n 9 || N.eqb n 10 || N.eqb n 11 || N.eqb n 12 || N.eqb n 13
   || N.eqb n 32 || N.eqb n 160)%bool.

Fixpoint trimStart (s : string) : string :=
  match s with
  | EmptyString => EmptyString
  | String c s' => if isWhiteSpace c then trimStart s' else s
  end.

Fixpoint trimEnd (s : string) : string :=
  match s with
  | EmptyString => EmptyString
  | String c s' =>
      match trimEnd s' with
      | EmptyString => if isWhiteSpace c then EmptyString else String c EmptyString
      | r => String c r
      end
  end.

(** [String.prototype.trim]. *)
Definition trim (s : string) : string := trimEnd (trimStart s).

(** [String.prototype.substring(start, end)]: both indices are clamped to
    [0 .. length] and swapped when out of order. *)
Definition js_substring (s : string) (start end_ : Z) : string :=
  let len := Z.of_nat (String.length s) in
  let a := Z.min (Z.max start 0) len in
  let b := Z.min (Z.max end_ 0) len in
  let lo := Z.min a b in
  let hi := Z.max a b in
  substring (Z.to_nat lo) (Z.to_nat (hi - lo)) s.

(** [String.prototype.charAt(i)] compared with a one-character literal:
    [None] stands for the empty string returned out of range. *)
Definition charAt (s : string) (i : Z) : option ascii :=
  if (i <? 0)%Z then None else get (Z.to_nat i) s.

Definition is_char (c : option ascii) (d : ascii) : bool :=
  match c with
  | Some c' => Ascii.eqb c' d
  | None => false
  end.

(** [isArrayToken] (source lines 272-274). *)
Definition isArrayToken (token : string) : bool :=
  (Nat.leb 2 (String.length token)
   && is_char (charAt token 0) "["
   && is_char (charAt token (Z.of_nat (String.length token) - 1)) "]")%bool.

(** [stripArrayChars] (source lines 276-278). *)
Definition stripArrayChars (token : string) : string :=
  js_substring token 1 (Z.of_nat (String.length token) - 1).

(* ------------------------------------------------------------------ *)
(** ** Data model *)

(** [MoronRelationExpressionNode]: a name and an ordered array of
    children. *)
Inductive MoronRelationExpressionNode : Type :=
  Node { name : string; children : list MoronRelationExpressionNode }.

(** [MoronRelationExpression]: the ordered array of root nodes. *)
Record MoronRelationExpression : Type :=
  Expression { nodes : list MoronRelationExpressionNode }.

(** [MoronValidationError({relationExpression: message})]. *)
Record MoronValidationError : Type :=
  ValidationError { relationExpression : string }.

(** What a call does: return a value, throw, or exhaust the fuel of
    the model. *)
Inductive Outcome (A : Type) : Type :=
| Return (a : A)
| Throw (e : MoronValidationError)
| OutOfFuel.

Arguments Return {A} a.
Arguments Throw {A} e.
Arguments OutOfFuel {A}.

Definition bind {A B : Type} (m : Outcome A) (k : A -> Outcome B) : Outcome B :=
  match m with
  | Return a => k a
  | Throw e => Throw e
  | OutOfFuel => OutOfFuel
  end.

Notation "x <- m ;; k" := (bind m (fun x => k))
  (at level 61, m at next level, right associativity).

(* ------------------------------------------------------------------ *)
(** ** The store of the parser *)

(** A reference to an array of the tree under construction.  The
    variable [nodes] of [_parse] starts as the root array, is replaced by
    [node.children] when [_parseToken] has pushed [node] onto it, and is
    left alone by [_parseArrayToken]; every push goes to the array it
    refers to at that time.  So the array is the one reached from the
    root array by going to the [children] of the last element as many
    times as [_parseToken] has been called, and the arrays above it, once
    left, are not pushed onto again: the reference is that number. *)
Definition ArrayRef : Type := nat.

Fixpoint split_last {A : Type} (l : list A) : option (list A * A) :=
  match l with
  | [] => None
  | x :: l' =>
      match split_last l' with
      | None => Some ([], x)
      | Some (init, z) => Some (x :: init, z)
      end
  end.

(** [ref.push(node)] in the store [rootNodes]. *)
Fixpoint push (ref : ArrayRef) (node : MoronRelationExpressionNode)
         (rootNodes : list MoronRelationExpressionNode)
  : list MoronRelationExpressionNode :=
  match ref with
  | O => rootNodes ++ [node]
  | S ref' =>
      match split_last rootNodes with
      | Some (init, Node n ch) => init ++ [Node n (push ref' node ch)]
      | None => rootNodes
      end
  end.

(** The loop of [_parseArrayIterator]: [ref.push(rel[i])] for each
    element of [rel], in order. *)
Definition push_all (ref : ArrayRef) (rel rootNodes : list MoronRelationExpressionNode)
  : list MoronRelationExpressionNode :=
  fold_left (fun acc node => push ref node acc) rel rootNodes.

(** The parser, as far as its methods use it: [this.str]. *)
Record MoronRelationExpressionParser : Type :=
  Parser { str : string }.

(** The state the callbacks of [_forEachToken] work on: the root array
    and the array the closure variable [nodes] refers to. *)
Definition ParseState : Type :=
  (list MoronRelationExpressionNode * ArrayRef)%type.

(* ------------------------------------------------------------------ *)
(** ** The tokenizer *)

Section ForEachToken.
Context {St : Type}.
Variable this : MoronRelationExpressionParser.

(** [_throwInvalidExpressionError] (source lines 112-114). *)
Definition _throwInvalidExpressionError {A : Type} : Outcome A :=
  Throw (ValidationError ("invalid relation expression: " ++ str this)%string).

Variable s : string.
Variable separator : ascii.
Variable callback : string -> St -> Outcome St.

(** The [for] loop of [_forEachToken] (source lines 91-105): [steps]
    iterations are left, [i] is the loop index. *)
Fixpoint forEachToken_loop (steps : nat) (i : nat)
         (bracketDepth previousMatchIndex : Z) (st : St) : Outcome (Z * St) :=
  match steps with
  | O => Return (bracketDepth, st)
  | S steps' =>
      let l := String.length s in
      let c := if Nat.eqb i l then Some separator else charAt s (Z.of_nat i) in
      if is_char c "[" then
        forEachToken_loop steps' (S i) (bracketDepth + 1) previousMatchIndex st
      else if is_char c "]" then
        forEachToken_loop steps' (S i) (bracketDepth - 1) previousMatchIndex st
      else if (is_char c separator && (bracketDepth =? 0)%Z)%bool then
        let token := trim (js_substring s (previousMatchIndex + 1) (Z.of_nat i)) in
        st' <- callback token st ;;
        forEachToken_loop steps' (S i) bracketDepth (Z.of_nat i) st'
      else
        forEachToken_loop steps' (S i) bracketDepth previousMatchIndex st
  end.

(** [_forEachToken] (source lines 85-110). *)
Definition _forEachToken (st : St) : Outcome St :=
  r <- forEachToken_loop (S (String.length s)) 0 0 (-1) st ;;
  let '(bracketDepth, st') := r in
  if negb (bracketDepth =? 0)%Z then _throwInvalidExpressionError
  else Return st'.
End ForEachToken.

(* ------------------------------------------------------------------ *)
(** ** The parser *)

Section ParserMethods.
Variable this : MoronRelationExpressionParser.

(** The call [this._parse(token)] made by [_parseArrayIterator]. *)
Variable _parse_rec : string -> Outcome (list MoronRelationExpressionNode).

(** [_parseToken] (source lines 74-83). *)
Definition _parseToken (token : string) (st : ParseState) : Outcome ParseState :=
  let '(rootNodes, nodes_ref) := st in
  if Nat.eqb (String.length token) 0 then _throwInvalidExpressionError this
  else
    let node := Node token [] in
    Return (push nodes_ref node rootNodes, S nodes_ref).

(** [_parseArrayIterator] (source lines 66-72): the array [nodes] is
    fixed by the caller, the state is the root array. *)
Definition _parseArrayIterator (nodes_ref : ArrayRef) (token : string)
           (rootNodes : list MoronRelationExpressionNode)
  : Outcome (list MoronRelationExpressionNode) :=
  rel <- _parse_rec token ;;
  Return (push_all nodes_ref rel rootNodes).

(** [_parseArrayToken] (source lines 56-64). *)
Definition _parseArrayToken (arrayToken : string) (st : ParseState)
  : Outcome ParseState :=
  let '(rootNodes, nodes_ref) := st in
  let arrayToken := stripArrayChars arrayToken in
  rootNodes' <- _forEachToken this arrayToken ","
                  (_parseArrayIterator nodes_ref) rootNodes ;;
  Return (rootNodes', nodes_ref).

(** [_parseIterator] (source lines 48-54). *)
Definition _parseIterator (token : string) (st : ParseState) : Outcome ParseState :=
  if isArrayToken token then _parseArrayToken token st
  else _parseToken token st.

(** The body of [_parse] (source lines 37-46). *)
Definition _parse_body (s : string) : Outcome (list MoronRelationExpressionNode) :=
  st <- _forEachToken this s "." _parseIterator ([], O) ;;
  Return (fst st).
End ParserMethods.

(** [_parse]: the recursion through [_parseArrayIterator] is on the
    sub-tokens of a stripped array token. *)
Fixpoint _parse (fuel : nat) (this : MoronRelationExpressionParser) (s : string)
  : Outcome (list MoronRelationExpressionNode) :=
  match fuel with
  | O => OutOfFuel
  | S fuel' => _parse_body this (_parse fuel' this) s
  end.

(** [MoronRelationExpressionParser.prototype.parse] (source lines 27-35),
    on a fresh parser as [MoronRelationExpressionParser.parse] and
    [MoronRelationExpression.parse] call it.  On a [String] object
    [length], [charAt] and [substring] are those of the string it holds,
    and so is what [+] appends to the error message. *)
Definition parse (v : JsValue) : Outcome MoronRelationExpression :=
  if (negb (isString v) || negb (truthy v))%bool then
    Return (Expression [])
  else
    match v with
    | JsString s =>
        let this := Parser s in
        ns <- _parse (S (String.length s)) this s ;;
        Return (Expression ns)
    | JsStringObject s =>
        let this := Parser s in
        ns <- _parse (S (String.length s)) this s ;;
        Return (Expression ns)
    | _ => Return (Expression [])
    end.

(* ------------------------------------------------------------------ *)
(** ** Queries on expressions *)

Definition name_is (n : option MoronRelationExpressionNode) (s : string) : bool :=
  match n with
  | Some node => String.eqb (name node) s
  | None => false
  end.

(** The loop of [isRecursive] over [this.nodes]. *)
Fixpoint isRecursive_loop (ns : list MoronRelationExpressionNode)
         (relationName : string) : bool :=
  match ns with
  | [] => false
  | node :: rest =>
      if String.eqb (name node) relationName then
        (Nat.eqb (List.length (children node)) 1
         && name_is (nth_error (children node) 0) "^")%bool
      else isRecursive_loop rest relationName
  end.

(** [isRecursive] (source lines 179-189). *)
Definition isRecursive (this : MoronRelationExpression) (relationName : string)
  : bool :=
  isRecursive_loop (nodes this) relationName.

(** [isAllRecursive] (source lines 195-197). *)
Definition isAllRecursive (this : MoronRelationExpression) : bool :=
  (Nat.eqb (List.length (nodes this)) 1
   && name_is (nth_error (nodes this) 0) "*")%bool.

(** The loop of [relation] over [this.nodes]; [None] is [null]. *)
Fixpoint relation_loop (this : MoronRelationExpression)
         (ns : list MoronRelationExpressionNode) (relationName : string)
  : option MoronRelationExpression :=
  match ns with
  | [] => None
  | node :: rest =>
      if negb (String.eqb (name node) relationName) then
        relation_loop this rest relationName
      else if isRecursive this (name node) then
        Some (Expression [node])
      else
        Some (Expression (children node))
  end.

(** [relation] (source lines 203-223). *)
Definition relation (this : MoronRelationExpression) (relationName : string)
  : option MoronRelationExpression :=
  if isAllRecursive this then Some this
  else relation_loop this (nodes this) relationName.

(** The argument of [isSubExpression]: an instance of
    [MoronRelationExpression], or any other value. *)
Inductive SubExpressionArg : Type :=
| ArgExpression (e : MoronRelationExpression)
| ArgValue (v : JsValue).

(** Source lines 246-248: what is not an expression is parsed. *)
Definition toExpression (arg : SubExpressionArg) : Outcome MoronRelationExpression :=
  match arg with
  | ArgExpression e => Return e
  | ArgValue v => parse v
  end.

(** What [relation] returned, as an argument: [null] is not an
    instance of [MoronRelationExpression]. *)
Definition arg_of_relation (r : option MoronRelationExpression) : SubExpressionArg :=
  match r with
  | Some e => ArgExpression e
  | None => ArgValue JsNull
  end.

Section IsSubExpression.
(** The call [ownSubExpression.isSubExpression(subExpression)], past
    its lines 246-248. *)
Variable isSubExpression_rec :
  MoronRelationExpression -> MoronRelationExpression -> Outcome bool.

(** The loop of [isSubExpression] over [expr.nodes] (source lines
    254-267), from the node [ns] starts with. *)
Fixpoint isSubExpression_loop (this expr : MoronRelationExpression)
         (ns : list MoronRelationExpressionNode) : Outcome bool :=
  match ns with
  | [] => Return true
  | node :: rest =>
      let relationName := name node in
      if (isRecursive expr relationName
          && (isAllRecursive this || isRecursive this relationName))%bool then
        Return true
      else
        let subExpression := relation expr relationName in
        let ownSubExpression := relation this relationName in
        match ownSubExpression with
        | None => Return false
        | Some own =>
            sub <- toExpression (arg_of_relation subExpression) ;;
            r <- isSubExpression_rec own sub ;;
            if negb r then Return false
            else isSubExpression_loop this expr rest
        end
  end.

(** Source lines 250-269. *)
Definition isSubExpression_body (this expr : MoronRelationExpression)
  : Outcome bool :=
  if isAllRecursive expr then Return (isAllRecursive this)
  else isSubExpression_loop this expr (nodes expr).
End IsSubExpression.

Fixpoint isSubExpression_fuel (fuel : nat) (this expr : MoronRelationExpression)
  : Outcome bool :=
  match fuel with
  | O => OutOfFuel
  | S fuel' => isSubExpression_body (isSubExpression_fuel fuel') this expr
  end.

(** The number of nodes of a tree and of a forest. *)
Fixpoint node_size (n : MoronRelationExpressionNode) : nat :=
  match n with
  | Node _ ch => S (list_sum (map node_size ch))
  end.

Definition forest_size (ns : list MoronRelationExpressionNode) : nat :=
  list_sum (map node_size ns).

Definition size (e : MoronRelationExpression) : nat := forest_size (nodes e).

(** [isSubExpression] (source lines 245-270). *)
Definition isSubExpression (this : MoronRelationExpression) (arg : SubExpressionArg)
  : Outcome bool :=
  expr <- toExpression arg ;;
  isSubExpression_fuel (S (size this + size expr)) this expr.

(* ------------------------------------------------------------------ *)
(** ** The splitter as the specification words it *)

(** Scan character by character with a bracket-depth counter; a
    separator is a split point only at depth zero; the end of the string
    counts as one more separator; every token is trimmed.  [cur] is the
    text read since the last split point.  The result is the tokens and
    the depth after the scan. *)
Fixpoint spec_scan (separator : ascii) (depth : Z) (cur rest : string)
  : list string * Z :=
  match rest with
  | EmptyString =>
      (if (depth =? 0)%Z then [trim cur] else [], depth)
  | String c rest' =>
      if Ascii.eqb c "[" then
        spec_scan separator (depth + 1) (cur ++ String c EmptyString)%string rest'
      else if Ascii.eqb c "]" then
        spec_scan separator (depth - 1) (cur ++ String c EmptyString)%string rest'
      else if (Ascii.eqb c separator && (depth =? 0)%Z)%bool then
        let '(ts, d) := spec_scan separator depth EmptyString rest' in
        (trim cur :: ts, d)
      else
        spec_scan separator depth (cur ++ String c EmptyString)%string rest'
  end.

Definition spec_tokens (separator : ascii) (s : string) : list string :=
  fst (spec_scan separator 0 EmptyString s).

Definition spec_depth (separator : ascii) (s : string) : Z :=
  snd (spec_scan separator 0 EmptyString s).

(** Running a callback over a list of tokens, left to right, stopping at
    the first one that does not return. *)
Fixpoint foldM {St : Type} (callback : string -> St -> Outcome St)
         (ts : list string) (st : St) : Outcome St :=
  match ts with
  | [] => Return st
  | t :: ts' => st' <- callback t st ;; foldM callback ts' st'
  end.

(* ------------------------------------------------------------------ *)
(** ** Malformed expressions, as the specification words them *)

(** A dotted chain is malformed when the scan for "." ends at a depth
    other than zero, when one of its tokens is empty, or when one of its
    array tokens, stripped of its outer brackets, has a scan for "," that
    ends at a depth other than zero or a sub-token that is a malformed
    dotted chain. *)
Inductive SpecBadChain : string -> Prop :=
| bad_brackets (s : string) :
    spec_depth "." s <> 0%Z -> SpecBadChain s
| bad_empty (s : string) :
    In ""%string (spec_tokens "." s) -> SpecBadChain s
| bad_array_brackets (s body : string) :
    In (String "[" (body ++ "]")%string) (spec_tokens "." s) ->
    spec_depth "," body <> 0%Z -> SpecBadChain s
| bad_array_item (s body u : string) :
    In (String "[" (body ++ "]")%string) (spec_tokens "." s) ->
    In u (spec_tokens "," body) ->
    SpecBadChain u -> SpecBadChain s.

(** The empty string is not an error; any other string is an error when
    it is a malformed chain. *)
Definition SpecInvalid (s : string) : Prop :=
  s <> ""%string /\ SpecBadChain s.

Definition invalidExpression (s : string) : MoronValidationError :=
  ValidationError ("invalid relation expression: " ++ s)%string.

(* ------------------------------------------------------------------ *)
(** ** Notions the properties are stated with *)

Definition bracket_weight (c : ascii) : Z :=
  if Ascii.eqb c "[" then 1%Z else if Ascii.eqb c "]" then (-1)%Z else 0%Z.

(** The number of "[" minus the number of "]" in a text. *)
Fixpoint balance (s : string) : Z :=
  match s with
  | EmptyString => 0%Z
  | String c s' => (bracket_weight c + balance s')%Z
  end.

(** A token that is empty after trimming comes out of a split: of the
    text on ".", or of the content of one of its array tokens on "," and
    then of a part of it on ".", and so on. *)
Inductive EmptyToken : string -> Prop :=
| empty_here (s : string) :
    In ""%string (spec_tokens "." s) -> EmptyToken s
| empty_in_array (s body u : string) :
    In (String "[" (body ++ "]")%string) (spec_tokens "." s) ->
    In u (spec_tokens "," body) ->
    EmptyToken u -> EmptyToken s.

(** The strings on which [parse] throws. *)
Definition Invalid (s : string) : Prop :=
  s <> ""%string /\ (balance s <> 0%Z \/ EmptyToken s).

(** Balanced brackets in the usual sense: every "]" closes a "[" that is
    open, and none is left open at the end. *)
Fixpoint balanced_from (open : nat) (s : string) : bool :=
  match s with
  | EmptyString => Nat.eqb open 0
  | String c s' =>
      if Ascii.eqb c "[" then balanced_from (S open) s'
      else if Ascii.eqb c "]" then
        match open with
        | O => false
        | S open' => balanced_from open' s'
        end
      else balanced_from open s'
  end.

Definition brackets_balanced (s : string) : bool := balanced_from 0 s.

(** A value is a non-empty string. *)
Definition nonEmptyString (v : JsValue) : Prop :=
  exists s, v = JsString s /\ s <> ""%string.

(** A value is a string for [_.isString]: a primitive string or a
    [String] object. *)
Definition isStringValue (v : JsValue) : Prop :=
  exists s, v = JsString s \/ v = JsStringObject s.

(** A node has exactly one child, and the child is named "^". *)
Definition only_child_is_caret (nd : MoronRelationExpressionNode) : Prop :=
  exists c, children nd = [c] /\ name c = "^"%string.

(** [nd] is the first node of [ns] with the name [n]. *)
Definition first_named (ns : list MoronRelationExpressionNode) (n : string)
           (nd : MoronRelationExpressionNode) : Prop :=
  exists pre post, ns = pre ++ nd :: post
                   /\ (forall m, In m pre -> name m <> n)
                   /\ name nd = n.

(** The recursive call of the method, on two expressions. *)
Definition isSubExpression_call (own sub : MoronRelationExpression) : Outcome bool :=
  isSubExpression own (ArgExpression sub).

(** An iteration of the loop of [A.isSubExpression(B)] that goes on to the
    next root node of [B]: the relation is present in [A] and contains
    the relation of [B]. *)
Definition iteration_passes (A B : MoronRelationExpression)
           (m : MoronRelationExpressionNode) : Prop :=
  exists own sub,
    relation A (name m) = Some own
    /\ relation B (name m) = Some sub
    /\ isSubExpression own (ArgExpression sub) = Return true.

(* ------------------------------------------------------------------ *)
(** ** The tree of a chain of tokens, described without a store *)

Section ChainForest.
Variable this : MoronRelationExpressionParser.
Variable rec : string -> Outcome (list MoronRelationExpressionNode).

(** The roots the parts of an array token contribute: the roots of
    each part, one part after the other. *)
Fixpoint array_items (us : list string)
  : Outcome (list MoronRelationExpressionNode) :=
  match us with
  | [] => Return []
  | u :: us' =>
      rel <- rec u ;;
      rest <- array_items us' ;;
      Return (rel ++ rest)
  end.

(** The forest of a chain of tokens: a plain token is one node whose
    children are the forest of the tokens after it; an array token
    contributes the roots of its parts, and the tokens after it continue
    beside them. *)
Fixpoint chain_forest (ts : list string)
  : Outcome (list MoronRelationExpressionNode) :=
  match ts with
  | [] => Return []
  | t :: ts' =>
      if isArrayToken t then
        items <- array_items (spec_tokens "," (stripArrayChars t)) ;;
        if negb (spec_depth "," (stripArrayChars t) =? 0)%Z
        then _throwInvalidExpressionError this
        else (rest <- chain_forest ts' ;; Return (items ++ rest))
      else if Nat.eqb (String.length t) 0 then _throwInvalidExpressionError this
      else (rest <- chain_forest ts' ;; Return [Node t rest])
  end.
End ChainForest.

(** Two outcomes that differ at most in the error thrown. *)
Definition same_but_error {A : Type} (o1 o2 : Outcome A) : Prop :=
  match o1, o2 with
  | Return a, Return b => a = b
  | Throw _, Throw _ => True
  | OutOfFuel, OutOfFuel => True
  | _, _ => False
  end.

(** A reference leads to an array of the store. *)
Fixpoint valid_ref (ref : ArrayRef) (R : list MoronRelationExpressionNode) : Prop :=
  match ref with
  | O => True
  | S ref' =>
      match split_last R with
      | Some (_, nd) => valid_ref ref' (children nd)
      | None => False
      end
  end.

(** Every node of a tree has a name with the property [P]. *)
Inductive AllNames (P : string -> Prop) : MoronRelationExpressionNode -> Prop :=
| all_names_node (n : string) (ch : list MoronRelationExpressionNode) :
    P n -> Forall (AllNames P) ch -> AllNames P (Node n ch).

(** What holds of every name the parser gives a node: it is not empty,
    has no white space at either end, is not an array token, and has as
    many "[" as "]". *)
Definition clean_name (t : string) : Prop :=
  t <> ""%string /\ trim t = t /\ isArrayToken t = false /\ balance t = 0%Z.

(** A character occurs in a text. *)
Fixpoint has_char (c : ascii) (s : string) : bool :=
  match s with
  | EmptyString => false
  | String d s' => (Ascii.eqb d c || has_char c s')%bool
  end.

(** A relation name is a relation of an expression. *)
Definition has_relation (E : MoronRelationExpression) (n : string) : bool :=
  match relation E n with
  | Some _ => true
  | None => false
  end.

(* ------------------------------------------------------------------ *)
(** ** Strings *)

Lemma length_app (a b : string) :
  String.length (a ++ b)%string = String.length a + String.length b.
Proof.
  induction a as [|c a IH]; simpl; [reflexivity | now rewrite IH].
Qed.

Lemma app_assoc_s (a b c : string) :
  ((a ++ b) ++ c)%string = (a ++ b ++ c)%string.
Proof.
  induction a as [|x a IH]; simpl; [reflexivity | now rewrite IH].
Qed.

Lemma get_app_here (a : string) (c : ascii) (b : string) :
  get (String.length a) (a ++ String c b)%string = Some c.
Proof.
  induction a as [|x a IH]; simpl; [reflexivity | exact IH].
Qed.

Lemma substring_prefix (cur rest : string) :
  substring 0 (String.length cur) (cur ++ rest)%string = cur.
Proof.
  induction cur as [|x cur IH]; simpl.
  - destruct rest; reflexivity.
  - now rewrite IH.
Qed.

Lemma substring_middle (pre cur rest : string) :
  substring (String.length pre) (String.length cur) (pre ++ cur ++ rest)%string = cur.
Proof.
  induction pre as [|x pre IH]; simpl.
  - apply substring_prefix.
  - exact IH.
Qed.

Lemma js_substring_middle (pre cur rest : string) (a b : Z) :
  a = Z.of_nat (String.length pre) ->
  b = Z.of_nat (String.length pre + String.length cur) ->
  js_substring (pre ++ cur ++ rest)%string a b = cur.
Proof.
  intros -> ->. unfold js_substring.
  rewrite !length_app.
  set (p := String.length pre). set (c := String.length cur).
  set (r := String.length rest).
  replace (Z.min (Z.max (Z.of_nat p) 0) (Z.of_nat (p + (c + r))))
    with (Z.of_nat p) by lia.
  replace (Z.min (Z.max (Z.of_nat (p + c)) 0) (Z.of_nat (p + (c + r))))
    with (Z.of_nat (p + c)) by lia.
  replace (Z.min (Z.of_nat p) (Z.of_nat (p + c))) with (Z.of_nat p) by lia.
  replace (Z.max (Z.of_nat p) (Z.of_nat (p + c)) - Z.of_nat p)%Z
    with (Z.of_nat c) by lia.
  rewrite !Nat2Z.id. subst p c. apply substring_middle.
Qed.

(* ------------------------------------------------------------------ *)
(** ** The loop of [_forEachToken] computes the splitter *)

Section ForEachTokenCorrect.
Context {St : Type}.
Variable this : MoronRelationExpressionParser.
Variable separator : ascii.
Variable callback : string -> St -> Outcome St.
Hypothesis sep_not_open : Ascii.eqb separator "[" = false.
Hypothesis sep_not_close : Ascii.eqb separator "]" = false.

Lemma forEachToken_loop_scan (rest pre cur : string) (depth prev : Z) (st : St) :
  (prev + 1)%Z = Z.of_nat (String.length pre) ->
  forEachToken_loop (pre ++ cur ++ rest)%string separator callback
    (S (String.length rest)) (String.length pre + String.length cur)
    depth prev st
  = (st' <- foldM callback (fst (spec_scan separator depth cur rest)) st ;;
     Return (snd (spec_scan separator depth cur rest), st')).
Proof.
  revert pre cur depth prev st.
  induction rest as [|c rest IH]; intros pre cur depth prev st Hprev.
  - cbn [forEachToken_loop String.length spec_scan].
    rewrite !length_app. cbn [String.length].
    rewrite Nat.add_0_r, Nat.eqb_refl. cbn [is_char].
    rewrite sep_not_open, sep_not_close, Ascii.eqb_refl. cbn [andb].
    destruct (depth =? 0)%Z; cbn [fst snd foldM bind].
    + rewrite (js_substring_middle pre cur "" (prev + 1));
        [ | exact Hprev | lia ].
      destruct (callback (trim cur) st); reflexivity.
    + reflexivity.
  - assert (Hget : charAt (pre ++ cur ++ String c rest)%string
                     (Z.of_nat (String.length pre + String.length cur)) = Some c).
    { unfold charAt.
      destruct (Z.ltb_spec (Z.of_nat (String.length pre + String.length cur)) 0);
        [lia|].
      rewrite Nat2Z.id, <- length_app, <- app_assoc_s. apply get_app_here. }
    assert (Hnext : forall d p s0,
               (p + 1)%Z = Z.of_nat (String.length pre) ->
               forEachToken_loop (pre ++ cur ++ String c rest)%string separator
                 callback (S (String.length rest))
                 (S (String.length pre + String.length cur)) d p s0
               = (st' <- foldM callback
                           (fst (spec_scan separator d (cur ++ String c "") rest)) s0 ;;
                  Return (snd (spec_scan separator d (cur ++ String c "") rest), st'))).
    { intros d p s0 Hp.
      specialize (IH pre (cur ++ String c "")%string d p s0 Hp).
      rewrite app_assoc_s in IH. cbn [append] in IH.
      rewrite length_app in IH. cbn [String.length] in IH.
      replace (String.length pre + (String.length cur + 1))
        with (S (String.length pre + String.length cur)) in IH by lia.
      exact IH. }
    cbn [String.length]. cbn [forEachToken_loop spec_scan].
    replace (Nat.eqb (String.length pre + String.length cur)
               (String.length (pre ++ cur ++ String c rest)%string)) with false.
    2:{ symmetry. apply Nat.eqb_neq. rewrite !length_app. cbn [String.length]. lia. }
    rewrite Hget. cbn [is_char].
    destruct (Ascii.eqb c "[") eqn:Eo; [apply Hnext; exact Hprev|].
    destruct (Ascii.eqb c "]") eqn:Ec; [apply Hnext; exact Hprev|].
    destruct (Ascii.eqb c separator && (depth =? 0)%Z)%bool eqn:Es;
      [|apply Hnext; exact Hprev].
    rewrite (js_substring_middle pre cur (String c rest) (prev + 1));
      [ | exact Hprev | lia ].
    specialize (IH (pre ++ cur ++ String c "")%string ""%string depth
                   (Z.of_nat (String.length pre + String.length cur))).
    cbn [append] in IH.
    rewrite !app_assoc_s in IH. cbn [append] in IH.
    rewrite !length_app in IH. cbn [String.length] in IH.
    replace (String.length pre + (String.length cur + 1) + 0)
      with (S (String.length pre + String.length cur)) in IH by lia.
    destruct (spec_scan separator depth "" rest) as [ts d] eqn:Escan.
    cbn [fst snd foldM].
    destruct (callback (trim cur) st) as [st1| |]; cbn [bind]; try reflexivity.
    apply IH. lia.
Qed.

(** [_forEachToken] runs the callback over the tokens of the splitter,
    then checks the depth. *)
Lemma forEachToken_spec (s : string) (st : St) :
  _forEachToken this s separator callback st
  = (st' <- foldM callback (spec_tokens separator s) st ;;
     if negb (spec_depth separator s =? 0)%Z
     then _throwInvalidExpressionError this
     else Return st').
Proof.
  unfold _forEachToken, spec_tokens, spec_depth.
  pose proof (forEachToken_loop_scan s "" "" 0 (-1) st eq_refl) as H.
  cbn [append String.length Nat.add] in H. rewrite H.
  destruct (foldM callback (fst (spec_scan separator 0 "" s)) st); reflexivity.
Qed.
End ForEachTokenCorrect.

(* ------------------------------------------------------------------ *)
(** ** Tokens are no longer than the text they come from *)

Lemma trimStart_length (s : string) : String.length (trimStart s) <= String.length s.
Proof.
  induction s as [|c s IH]; simpl; [lia|].
  destruct (isWhiteSpace c); simpl; lia.
Qed.

Lemma trimEnd_length (s : string) : String.length (trimEnd s) <= String.length s.
Proof.
  induction s as [|c s IH]; simpl; [lia|].
  destruct (trimEnd s); [destruct (isWhiteSpace c)|]; simpl in *; lia.
Qed.

Lemma trim_length (s : string) : String.length (trim s) <= String.length s.
Proof.
  unfold trim. pose proof (trimEnd_length (trimStart s)).
  pose proof (trimStart_length s). lia.
Qed.

Lemma substring_length (n m : nat) (s : string) :
  String.length (substring n m s) <= m.
Proof.
  revert n m. induction s as [|c s IH]; intros n m.
  - destruct n, m; simpl; lia.
  - destruct n as [|n].
    + destruct m as [|m]; simpl; [lia|]. specialize (IH 0 m). lia.
    + simpl. apply IH.
Qed.

Lemma spec_scan_length (separator : ascii) (rest : string) :
  forall depth cur t,
    In t (fst (spec_scan separator depth cur rest)) ->
    String.length t <= String.length cur + String.length rest.
Proof.
  induction rest as [|c rest IH]; intros depth cur t; cbn [spec_scan].
  - destruct (depth =? 0)%Z; cbn [fst In]; [|tauto].
    intros [<-|[]]. pose proof (trim_length cur). lia.
  - assert (Hgo : forall d, In t (fst (spec_scan separator d (cur ++ String c "") rest)) ->
                           String.length t <= String.length cur + String.length (String c rest)).
    { intros d H. apply IH in H. rewrite length_app in H. simpl in *. lia. }
    destruct (Ascii.eqb c "["); [apply Hgo|].
    destruct (Ascii.eqb c "]"); [apply Hgo|].
    destruct (Ascii.eqb c separator && (depth =? 0)%Z)%bool; [|apply Hgo].
    destruct (spec_scan separator depth "" rest) as [ts d] eqn:E.
    cbn [fst In]. intros [<-|H].
    + pose proof (trim_length cur). simpl. lia.
    + specialize (IH depth ""%string t). rewrite E in IH. apply IH in H.
      simpl in *. lia.
Qed.

Lemma spec_tokens_length (separator : ascii) (s t : string) :
  In t (spec_tokens separator s) -> String.length t <= String.length s.
Proof.
  intros H. apply spec_scan_length in H. simpl in H. exact H.
Qed.

(** After a scan that ends at depth zero there is at least one token. *)
Lemma spec_scan_nonempty (separator : ascii) (rest : string) :
  forall depth cur,
    snd (spec_scan separator depth cur rest) = 0%Z ->
    fst (spec_scan separator depth cur rest) <> [].
Proof.
  induction rest as [|c rest IH]; intros depth cur; cbn [spec_scan].
  - cbn [snd]. intros ->. cbn. discriminate.
  - destruct (Ascii.eqb c "["); [apply IH|].
    destruct (Ascii.eqb c "]"); [apply IH|].
    destruct (Ascii.eqb c separator && (depth =? 0)%Z)%bool; [|apply IH].
    destruct (spec_scan separator depth "" rest) as [ts d]. cbn. discriminate.
Qed.

Lemma stripArrayChars_length (t : string) :
  isArrayToken t = true -> String.length (stripArrayChars t) < String.length t.
Proof.
  unfold isArrayToken, stripArrayChars, js_substring. intros H.
  apply andb_prop in H as [H _]. apply andb_prop in H as [H _].
  apply Nat.leb_le in H.
  match goal with |- String.length (substring ?n ?m _) < _ =>
    pose proof (substring_length n m t) as Hs;
    assert (m <= String.length t - 2) by lia
  end.
  lia.
Qed.

(* ------------------------------------------------------------------ *)
(** ** [foldM] *)

Section FoldM.
Context {St : Type}.
Variable callback : string -> St -> Outcome St.

Lemma foldM_fuel (ts : list string) :
  (forall t st, In t ts -> callback t st <> OutOfFuel) ->
  forall st, foldM callback ts st <> OutOfFuel.
Proof.
  induction ts as [|t ts IH]; intros H st; cbn [foldM]; [discriminate|].
  destruct (callback t st) as [st1| |] eqn:E; cbn [bind].
  - apply IH. intros u s0 Hu. apply H. now right.
  - discriminate.
  - exfalso. apply (H t st); [now left | exact E].
Qed.

Lemma foldM_throw (ts : list string) (e : MoronValidationError) :
  forall st, foldM callback ts st = Throw e ->
             exists t st0, In t ts /\ callback t st0 = Throw e.
Proof.
  induction ts as [|t ts IH]; intros st; cbn [foldM]; [discriminate|].
  destruct (callback t st) as [st1| |] eqn:E; cbn [bind]; intros H.
  - destruct (IH _ H) as (u & s0 & Hu & Hc). exists u, s0. split; [now right | exact Hc].
  - exists t, st. split; [now left | congruence].
  - discriminate.
Qed.

Lemma foldM_return (ts : list string) :
  forall st st', foldM callback ts st = Return st' ->
                 forall t, In t ts -> exists st0 st1, callback t st0 = Return st1.
Proof.
  induction ts as [|t ts IH]; intros st st'; cbn [foldM]; [intros _ u []|].
  destruct (callback t st) as [st1| |] eqn:E; cbn [bind]; intros H u Hu;
    try discriminate.
  destruct Hu as [<-|Hu]; [now exists st, st1 | exact (IH _ _ H u Hu)].
Qed.

Lemma foldM_invariant (P : St -> Prop) (ts : list string) :
  (forall t st st', In t ts -> callback t st = Return st' -> P st -> P st') ->
  forall st st', foldM callback ts st = Return st' -> P st -> P st'.
Proof.
  induction ts as [|t ts IH]; intros H st st'; cbn [foldM].
  - intros [= <-]. tauto.
  - destruct (callback t st) as [st1| |] eqn:E; cbn [bind]; intros Hf Hp;
      try discriminate.
    apply (IH (fun u a b Hu => H u a b (or_intror Hu)) st1 st' Hf).
    exact (H t st st1 (or_introl eq_refl) E Hp).
Qed.
End FoldM.

(* ------------------------------------------------------------------ *)
(** ** The parser in terms of the splitter *)

Lemma dot_not_bracket :
  Ascii.eqb "." "[" = false /\ Ascii.eqb "." "]" = false.
Proof. split; reflexivity. Qed.

Lemma comma_not_bracket :
  Ascii.eqb "," "[" = false /\ Ascii.eqb "," "]" = false.
Proof. split; reflexivity. Qed.

Section ParserSpec.
Variable this : MoronRelationExpressionParser.
Variable rec : string -> Outcome (list MoronRelationExpressionNode).

Lemma parseArrayToken_spec (tok : string) (R : list MoronRelationExpressionNode)
      (ref : ArrayRef) :
  _parseArrayToken this rec tok (R, ref)
  = (R' <- foldM (_parseArrayIterator rec ref)
                 (spec_tokens "," (stripArrayChars tok)) R ;;
     if negb (spec_depth "," (stripArrayChars tok) =? 0)%Z
     then _throwInvalidExpressionError this
     else Return (R', ref)).
Proof.
  unfold _parseArrayToken.
  rewrite (forEachToken_spec this "," _ (proj1 comma_not_bracket)
                             (proj2 comma_not_bracket)).
  destruct (foldM _ _ R); cbn [bind]; try reflexivity.
  destruct (negb _); reflexivity.
Qed.

Lemma parse_body_spec (s : string) :
  _parse_body this rec s
  = (st <- foldM (_parseIterator this rec) (spec_tokens "." s) ([], O) ;;
     if negb (spec_depth "." s =? 0)%Z
     then _throwInvalidExpressionError this
     else Return (fst st)).
Proof.
  unfold _parse_body.
  rewrite (forEachToken_spec this "." _ (proj1 dot_not_bracket)
                             (proj2 dot_not_bracket)).
  destruct (foldM _ _ _); cbn [bind]; try reflexivity.
  destruct (negb _); reflexivity.
Qed.
End ParserSpec.

(** With more fuel than the text has characters [_parse] never runs out
    of fuel. *)
Lemma parse_fuel_enough (this : MoronRelationExpressionParser) (fuel : nat) :
  forall s, String.length s < fuel -> _parse fuel this s <> OutOfFuel.
Proof.
  induction fuel as [|fuel IH]; intros s Hlen; [lia|].
  cbn [_parse]. rewrite parse_body_spec.
  assert (Hcb : forall t st, In t (spec_tokens "." s) ->
                             _parseIterator this (_parse fuel this) t st <> OutOfFuel).
  { intros t [R ref] Ht. apply spec_tokens_length in Ht.
    unfold _parseIterator. destruct (isArrayToken t) eqn:Ea.
    - rewrite parseArrayToken_spec.
      pose proof (stripArrayChars_length t Ea) as Hstrip.
      assert (Hit : forall u R0, In u (spec_tokens "," (stripArrayChars t)) ->
                                 _parseArrayIterator (_parse fuel this) ref u R0 <> OutOfFuel).
      { intros u R0 Hu. apply spec_tokens_length in Hu.
        unfold _parseArrayIterator.
        specialize (IH u ltac:(lia)).
        destruct (_parse fuel this u); cbn [bind]; congruence. }
      pose proof (foldM_fuel _ _ Hit R) as Hf.
      destruct (foldM _ _ R); cbn [bind]; try congruence.
      destruct (negb _); discriminate.
    - unfold _parseToken. destruct (Nat.eqb _ _); discriminate. }
  pose proof (foldM_fuel _ _ Hcb ([], O)) as Hf.
  destruct (foldM _ _ _); cbn [bind]; try congruence.
  destruct (negb _); discriminate.
Qed.

Lemma foldM_ext {St : Type} (f g : string -> St -> Outcome St) (ts : list string) :
  (forall t st, In t ts -> f t st = g t st) ->
  forall st, foldM f ts st = foldM g ts st.
Proof.
  induction ts as [|t ts IH]; intros H st; cbn [foldM]; [reflexivity|].
  rewrite (H t st (or_introl eq_refl)).
  destruct (g t st); cbn [bind]; try reflexivity.
  apply IH. intros u s0 Hu. apply H. now right.
Qed.

(** The result of [_parse] does not depend on how much fuel is left, as
    long as it is more than the length of the text. *)
Lemma parse_fuel_irrelevant (this : MoronRelationExpressionParser) (f1 : nat) :
  forall f2 s, String.length s < f1 -> String.length s < f2 ->
               _parse f1 this s = _parse f2 this s.
Proof.
  induction f1 as [|f1 IH]; intros f2 s H1 H2; [lia|].
  destruct f2 as [|f2]; [lia|].
  cbn [_parse]. rewrite !parse_body_spec.
  rewrite (foldM_ext (_parseIterator this (_parse f1 this))
                     (_parseIterator this (_parse f2 this))); [reflexivity|].
  intros t [R ref] Ht. apply spec_tokens_length in Ht.
  unfold _parseIterator. destruct (isArrayToken t) eqn:Ea; [|reflexivity].
  rewrite !parseArrayToken_spec.
  pose proof (stripArrayChars_length t Ea) as Hstrip.
  rewrite (foldM_ext (_parseArrayIterator (_parse f1 this) ref)
                     (_parseArrayIterator (_parse f2 this) ref)); [reflexivity|].
  intros u R0 Hu. apply spec_tokens_length in Hu.
  unfold _parseArrayIterator. rewrite (IH f2 u); [reflexivity | lia | lia].
Qed.

(* ------------------------------------------------------------------ *)
(** ** A successful [_parse] produces at least one root *)

Lemma split_last_some {A : Type} (l : list A) :
  l <> [] -> exists init z, split_last l = Some (init, z).
Proof.
  induction l as [|x l IH]; [congruence|]. intros _. cbn [split_last].
  destruct l as [|y l].
  - now exists [], x.
  - destruct IH as (init & z & ->); [discriminate|]. now exists (x :: init), z.
Qed.

Lemma push_nonempty (ref : ArrayRef) (node : MoronRelationExpressionNode)
      (R : list MoronRelationExpressionNode) :
  ref = O \/ R <> [] -> push ref node R <> [].
Proof.
  destruct ref as [|ref]; cbn [push].
  - intros _. destruct R; discriminate.
  - intros [H|H]; [discriminate|].
    destruct (split_last_some R H) as (init & [n ch] & ->).
    destruct init; discriminate.
Qed.

Lemma push_all_nonempty (ref : ArrayRef) (rel R : list MoronRelationExpressionNode) :
  R <> [] \/ (ref = O /\ rel <> []) ->
  push_all ref rel R <> [].
Proof.
  unfold push_all. revert R. induction rel as [|node rel IH]; intros R H; cbn [fold_left].
  - destruct H as [H|[_ H]]; congruence.
  - apply IH. left. apply push_nonempty.
    destruct H as [H|[H _]]; [now right | now left].
Qed.

Section ParseNonEmpty.
Variable this : MoronRelationExpressionParser.
Variable rec : string -> Outcome (list MoronRelationExpressionNode).
Hypothesis rec_nonempty : forall u rel, rec u = Return rel -> rel <> [].

(** A token leaves a root array that is not empty, when it finds the
    root array not empty or is handed the root array itself. *)
Lemma parseIterator_nonempty (t : string) (R R' : list MoronRelationExpressionNode)
      (ref ref' : ArrayRef) :
  _parseIterator this rec t (R, ref) = Return (R', ref') ->
  R <> [] \/ ref = O -> R' <> [].
Proof.
  unfold _parseIterator. destruct (isArrayToken t).
  - rewrite parseArrayToken_spec.
    destruct (foldM _ _ R) as [R1| |] eqn:Ef; cbn [bind]; try discriminate.
    destruct (spec_depth "," (stripArrayChars t) =? 0)%Z eqn:Ed;
      cbn [negb]; [|discriminate].
    intros [= <- <-] Hinit.
    apply Z.eqb_eq in Ed.
    pose proof (spec_scan_nonempty "," (stripArrayChars t) 0 "" Ed) as Hne.
    fold (spec_tokens "," (stripArrayChars t)) in Hne.
    destruct (spec_tokens "," (stripArrayChars t)) as [|u us]; [congruence|].
    cbn [foldM] in Ef. unfold _parseArrayIterator at 1 in Ef.
    destruct (rec u) as [rel| |] eqn:Eu; cbn [bind] in Ef; try discriminate.
    refine (foldM_invariant _ (fun R0 => R0 <> []) us _ _ _ Ef _).
    + intros v R0 R2 _. unfold _parseArrayIterator.
      destruct (rec v); cbn [bind]; try discriminate.
      intros [= <-] H0. apply push_all_nonempty. now left.
    + apply push_all_nonempty.
      destruct Hinit as [H|H]; [now left | right].
      split; [exact H | exact (rec_nonempty u rel Eu)].
  - unfold _parseToken. destruct (Nat.eqb _ _); [discriminate|].
    intros [= <- <-] Hinit. apply push_nonempty. tauto.
Qed.

Lemma parse_body_nonempty (s : string) (ns : list MoronRelationExpressionNode) :
  _parse_body this rec s = Return ns -> ns <> [].
Proof.
  rewrite parse_body_spec.
  destruct (foldM _ _ _) as [[R ref]| |] eqn:Ef; cbn [bind]; try discriminate.
  destruct (spec_depth "." s =? 0)%Z eqn:Ed; cbn [negb]; [|discriminate].
  intros [= <-]. cbn [fst].
  apply Z.eqb_eq in Ed.
  pose proof (spec_scan_nonempty "." s 0 "" Ed) as Hne.
  fold (spec_tokens "." s) in Hne.
  destruct (spec_tokens "." s) as [|t ts]; [congruence|].
  cbn [foldM] in Ef.
  destruct (_parseIterator this rec t ([], O)) as [[R1 ref1]| |] eqn:Et;
    cbn [bind] in Ef; try discriminate.
  apply parseIterator_nonempty in Et; [|now right].
  refine (foldM_invariant _ (fun st => fst st <> []) ts _ _ _ Ef Et).
  intros v [R0 r0] [R2 r2] _ Hv H0. cbn [fst] in *.
  apply (parseIterator_nonempty _ _ _ _ _ Hv). now left.
Qed.
End ParseNonEmpty.

Lemma _parse_nonempty (this : MoronRelationExpressionParser) (fuel : nat) :
  forall s ns, _parse fuel this s = Return ns -> ns <> [].
Proof.
  induction fuel as [|fuel IH]; intros s ns; cbn [_parse]; [discriminate|].
  apply parse_body_nonempty. exact IH.
Qed.

(* ------------------------------------------------------------------ *)
(** ** Array tokens *)

Lemma get_last (t : string) (x : ascii) :
  t <> ""%string -> get (String.length t - 1) t = Some x ->
  exists body, t = (body ++ String x "")%string.
Proof.
  induction t as [|a t IH]; [congruence|]. intros _ H.
  destruct t as [|b t].
  - cbn in H. injection H as ->. now exists ""%string.
  - cbn [String.length] in H.
    replace (S (S (String.length t)) - 1) with (S (String.length t)) in H by lia.
    cbn [get] in H.
    destruct IH as (body & Hb); [discriminate| |].
    + cbn [String.length]. replace (S (String.length t) - 1) with (String.length t) by lia.
      exact H.
    + exists (String a body). cbn [append]. now rewrite <- Hb.
Qed.

(** An array token begins with "[" and ends with "]" and has at least
    two characters. *)
Lemma isArrayToken_iff (t : string) :
  isArrayToken t = true <-> exists body, t = String "[" (body ++ "]")%string.
Proof.
  unfold isArrayToken. split.
  - intros H. apply andb_prop in H as [H Hlast]. apply andb_prop in H as [Hlen Hfirst].
    apply Nat.leb_le in Hlen.
    destruct t as [|c t]; [cbn in Hlen; lia|].
    cbn in Hfirst. apply Ascii.eqb_eq in Hfirst. subst c.
    unfold charAt in Hlast. cbn [String.length] in *.
    destruct (Z.ltb_spec (Z.of_nat (S (String.length t)) - 1) 0); [lia|].
    replace (Z.to_nat (Z.of_nat (S (String.length t)) - 1))
      with (S (String.length t - 1)) in Hlast by lia.
    cbn [get] in Hlast.
    destruct (get (String.length t - 1) t) as [x|] eqn:Eg; [|discriminate].
    cbn in Hlast. apply Ascii.eqb_eq in Hlast. subst x.
    destruct (get_last t "]") as (body & ->); [|exact Eg|now exists body].
    destruct t; [cbn in Hlen; lia | discriminate].
  - intros (body & ->). cbn [String.length]. rewrite length_app. cbn [String.length].
    apply andb_true_intro. split; [apply andb_true_intro; split|].
    + apply Nat.leb_le. lia.
    + reflexivity.
    + unfold charAt.
      destruct (Z.ltb_spec (Z.of_nat (S (String.length body + 1)) - 1) 0); [lia|].
      replace (Z.to_nat (Z.of_nat (S (String.length body + 1)) - 1))
        with (S (String.length body)) by lia.
      cbn [get]. rewrite get_app_here. reflexivity.
Qed.

Lemma stripArrayChars_body (body : string) :
  stripArrayChars (String "[" (body ++ "]")%string) = body.
Proof.
  unfold stripArrayChars.
  apply (js_substring_middle "[" body "]").
  - reflexivity.
  - cbn [String.length]. rewrite length_app. cbn [String.length]. lia.
Qed.

(** What [_parse] throws is the one error, with [this.str] in it, and it
    throws on malformed chains only. *)
Lemma _parse_throw (this : MoronRelationExpressionParser) (fuel : nat) :
  forall s e, _parse fuel this s = Throw e ->
              e = invalidExpression (str this) /\ SpecBadChain s.
Proof.
  induction fuel as [|fuel IH]; intros s e; cbn [_parse]; [discriminate|].
  rewrite parse_body_spec.
  destruct (foldM _ _ _) as [st| |] eqn:Ef; cbn [bind]; try discriminate.
  - destruct (spec_depth "." s =? 0)%Z eqn:Ed; cbn [negb]; [discriminate|].
    intros [= <-]. split; [reflexivity|].
    apply bad_brackets. now apply Z.eqb_neq.
  - intros [= ->].
    apply foldM_throw in Ef as (t & [R ref] & Ht & Hc).
    unfold _parseIterator in Hc. destruct (isArrayToken t) eqn:Ea.
    + apply isArrayToken_iff in Ea as (body & ->).
      rewrite parseArrayToken_spec, stripArrayChars_body in Hc.
      destruct (foldM _ _ R) as [R1| |] eqn:Ei; cbn [bind] in Hc; try discriminate.
      * destruct (spec_depth "," body =? 0)%Z eqn:Ed; cbn [negb] in Hc; [discriminate|].
        injection Hc as <-. split; [reflexivity|].
        apply (bad_array_brackets s body Ht). now apply Z.eqb_neq.
      * injection Hc as ->.
        apply foldM_throw in Ei as (u & R0 & Hu & Hi).
        unfold _parseArrayIterator in Hi.
        destruct (_parse fuel this u) as [rel| |] eqn:Eu; cbn [bind] in Hi;
          try discriminate.
        injection Hi as ->.
        destruct (IH u e Eu) as [He Hbad]. split; [exact He|].
        exact (bad_array_item s body u Ht Hu Hbad).
    + unfold _parseToken in Hc.
      destruct (Nat.eqb (String.length t) 0) eqn:El; [|discriminate].
      injection Hc as <-. split; [reflexivity|].
      apply Nat.eqb_eq in El. destruct t; [|discriminate].
      now apply bad_empty.
Qed.

(** [_parse] does not return on a malformed chain. *)
Lemma _parse_bad (this : MoronRelationExpressionParser) (s : string) :
  SpecBadChain s -> forall fuel ns, _parse fuel this s <> Return ns.
Proof.
  induction 1 as [s Hd | s Hin | s body Hin Hd | s body u Hin Hu Hbad IH];
    intros [|fuel] ns; cbn [_parse]; try discriminate;
    rewrite parse_body_spec;
    destruct (foldM _ _ _) as [st| |] eqn:Ef; cbn [bind]; try discriminate;
    destruct (spec_depth "." s =? 0)%Z eqn:Ed; cbn [negb]; try discriminate;
    exfalso.
  - apply Z.eqb_eq in Ed. contradiction.
  - destruct (foldM_return _ _ _ _ Ef _ Hin) as ([R ref] & st1 & Hc).
    cbn in Hc. discriminate.
  - destruct (foldM_return _ _ _ _ Ef _ Hin) as ([R ref] & st1 & Hc).
    unfold _parseIterator in Hc.
    rewrite (proj2 (isArrayToken_iff _) (ex_intro _ body eq_refl)) in Hc.
    rewrite parseArrayToken_spec, stripArrayChars_body in Hc.
    destruct (foldM _ _ R); cbn [bind] in Hc; try discriminate.
    apply Z.eqb_neq in Hd. rewrite Hd in Hc. discriminate.
  - destruct (foldM_return _ _ _ _ Ef _ Hin) as ([R ref] & st1 & Hc).
    unfold _parseIterator in Hc.
    rewrite (proj2 (isArrayToken_iff _) (ex_intro _ body eq_refl)) in Hc.
    rewrite parseArrayToken_spec, stripArrayChars_body in Hc.
    destruct (foldM _ _ R) as [R1| |] eqn:Ei; cbn [bind] in Hc; try discriminate.
    destruct (foldM_return _ _ _ _ Ei _ Hu) as (R0 & R2 & Hi).
    unfold _parseArrayIterator in Hi.
    destruct (_parse fuel this u) as [rel| |] eqn:Eu; cbn [bind] in Hi;
      try discriminate.
    exact (IH fuel rel Eu).
Qed.

(** [parse] on a string always returns or throws. *)
Lemma parse_string_cases (s : string) :
  (s = ""%string /\ parse (JsString s) = Return (Expression []))
  \/ (s <> ""%string /\
      parse (JsString s)
      = (ns <- _parse (S (String.length s)) (Parser s) s ;; Return (Expression ns))).
Proof.
  destruct s as [|c s]; [left | right]; split; try reflexivity; discriminate.
Qed.

(* ------------------------------------------------------------------ *)
(** ** Sizes, and what [relation] returns *)

Lemma children_size (m : MoronRelationExpressionNode) :
  forest_size (children m) < node_size m.
Proof.
  destruct m as [n ch]. unfold forest_size. cbn [children].
  exact (Nat.lt_succ_diag_r (list_sum (map node_size ch))).
Qed.

Lemma list_sum_cons (a : nat) (l : list nat) : list_sum (a :: l) = a + list_sum l.
Proof. reflexivity. Qed.

Lemma in_forest_size (m : MoronRelationExpressionNode)
      (ns : list MoronRelationExpressionNode) :
  In m ns -> node_size m <= forest_size ns.
Proof.
  unfold forest_size. induction ns as [|x ns IH]; [intros []|].
  cbn [map]. rewrite list_sum_cons. intros [->|H]; [lia | apply IH in H; lia].
Qed.

Lemma singleton_size (m : MoronRelationExpressionNode) :
  forest_size [m] = node_size m.
Proof. unfold forest_size. cbn [map]. rewrite list_sum_cons. cbn. lia. Qed.

Lemma relation_loop_some (this : MoronRelationExpression)
      (ns : list MoronRelationExpressionNode) (n : string) (e : MoronRelationExpression) :
  relation_loop this ns n = Some e ->
  exists m, In m ns /\ name m = n /\
            ((isRecursive this n = true /\ e = Expression [m])
             \/ (isRecursive this n = false /\ e = Expression (children m))).
Proof.
  induction ns as [|x ns IH]; cbn [relation_loop]; [discriminate|].
  destruct (String.eqb (name x) n) eqn:En; cbn [negb].
  - apply String.eqb_eq in En. rewrite En.
    destruct (isRecursive this n) eqn:Er; intros [= <-]; exists x;
      (split; [now left | split; [exact En | tauto]]).
  - intros H. destruct (IH H) as (m & Hm & Hrest). exists m. split; [now right | exact Hrest].
Qed.

Lemma relation_loop_in (this : MoronRelationExpression)
      (ns : list MoronRelationExpressionNode) (m : MoronRelationExpressionNode) :
  In m ns -> relation_loop this ns (name m) <> None.
Proof.
  induction ns as [|x ns IH]; [intros []|]. cbn [relation_loop].
  intros [->|H].
  - rewrite String.eqb_refl. cbn [negb]. destruct (isRecursive this (name m)); discriminate.
  - destruct (String.eqb (name x) (name m)); cbn [negb]; [|exact (IH H)].
    destruct (isRecursive this (name x)); discriminate.
Qed.

(** [relation] never returns something larger, and something smaller
    when the relation is found and is not recursive. *)
Lemma relation_size (this own : MoronRelationExpression) (n : string) :
  relation this n = Some own ->
  size own <= size this /\
  (isAllRecursive this = false -> isRecursive this n = false -> size own < size this).
Proof.
  unfold relation. destruct (isAllRecursive this).
  - intros [= <-]. split; [lia | discriminate].
  - intros H. apply relation_loop_some in H as (m & Hm & _ & [[Hr ->]|[Hr ->]]);
      unfold size; cbn [nodes];
      pose proof (in_forest_size m _ Hm); pose proof (children_size m);
      rewrite ?singleton_size; split; try lia; intros _ Hr'; try congruence; lia.
Qed.

(** The pair the loop of [isSubExpression] recurses on is smaller than
    the pair it was called on. *)
Lemma recursion_decreases (this expr own : MoronRelationExpression)
      (node : MoronRelationExpressionNode) :
  isAllRecursive expr = false ->
  In node (nodes expr) ->
  (isRecursive expr (name node)
   && (isAllRecursive this || isRecursive this (name node)))%bool = false ->
  relation this (name node) = Some own ->
  exists sub, relation expr (name node) = Some sub
              /\ size own + size sub < size this + size expr.
Proof.
  intros Hall Hin Hshort Hown.
  destruct (relation expr (name node)) as [sub|] eqn:Hsub.
  2:{ unfold relation in Hsub. rewrite Hall in Hsub.
      now apply relation_loop_in in Hsub. }
  exists sub. split; [reflexivity|].
  destruct (relation_size _ _ _ Hown) as [Ho1 Ho2].
  destruct (relation_size _ _ _ Hsub) as [Hs1 Hs2].
  destruct (isRecursive expr (name node)) eqn:Er; cbn [andb] in Hshort.
  - apply orb_false_elim in Hshort as [Ha Hr]. specialize (Ho2 Ha Hr). lia.
  - specialize (Hs2 Hall eq_refl). lia.
Qed.

(* ------------------------------------------------------------------ *)
(** ** [isSubExpression] terminates, whatever the fuel *)

Section LoopExt.
Variables rec1 rec2 : MoronRelationExpression -> MoronRelationExpression -> Outcome bool.
Variables this expr : MoronRelationExpression.
Hypothesis not_all : isAllRecursive expr = false.
Hypothesis rec_agree :
  forall own sub, size own + size sub < size this + size expr ->
                  rec1 own sub = rec2 own sub.

Lemma isSubExpression_loop_ext (ns : list MoronRelationExpressionNode) :
  incl ns (nodes expr) ->
  isSubExpression_loop rec1 this expr ns = isSubExpression_loop rec2 this expr ns.
Proof.
  induction ns as [|node ns IH]; intros Hincl; cbn [isSubExpression_loop];
    [reflexivity|].
  destruct (isRecursive expr (name node)
            && (isAllRecursive this || isRecursive this (name node)))%bool eqn:Hs;
    [reflexivity|].
  destruct (relation this (name node)) as [own|] eqn:Hown; [|reflexivity].
  destruct (recursion_decreases this expr own node not_all
              (Hincl node (or_introl eq_refl)) Hs Hown) as (sub & -> & Hlt).
  cbn [arg_of_relation toExpression bind].
  rewrite (rec_agree own sub Hlt).
  destruct (rec2 own sub) as [r| |]; cbn [bind]; try reflexivity.
  destruct (negb r); [reflexivity|].
  apply IH. intros x Hx. apply Hincl. now right.
Qed.
End LoopExt.

Lemma isSubExpression_body_ext
      (rec1 rec2 : MoronRelationExpression -> MoronRelationExpression -> Outcome bool)
      (this expr : MoronRelationExpression) :
  (forall own sub, size own + size sub < size this + size expr ->
                   rec1 own sub = rec2 own sub) ->
  isSubExpression_body rec1 this expr = isSubExpression_body rec2 this expr.
Proof.
  intros H. unfold isSubExpression_body.
  destruct (isAllRecursive expr) eqn:Ha; [reflexivity|].
  apply isSubExpression_loop_ext; [exact Ha | exact H | apply incl_refl].
Qed.

Lemma isSubExpression_fuel_irrelevant (f1 : nat) :
  forall f2 this expr,
    size this + size expr < f1 -> size this + size expr < f2 ->
    isSubExpression_fuel f1 this expr = isSubExpression_fuel f2 this expr.
Proof.
  induction f1 as [|f1 IH]; intros f2 this expr H1 H2; [lia|].
  destruct f2 as [|f2]; [lia|]. cbn [isSubExpression_fuel].
  apply isSubExpression_body_ext. intros own sub Hlt. apply IH; lia.
Qed.

(** The equation of the method: [isSubExpression] is its body, with
    itself for the recursive call. *)
Lemma isSubExpression_unfold (this expr : MoronRelationExpression) :
  isSubExpression this (ArgExpression expr)
  = isSubExpression_body (fun own sub => isSubExpression own (ArgExpression sub))
                         this expr.
Proof.
  unfold isSubExpression at 1. cbn [toExpression bind isSubExpression_fuel].
  apply isSubExpression_body_ext. intros own sub Hlt.
  unfold isSubExpression. cbn [toExpression bind].
  apply isSubExpression_fuel_irrelevant; lia.
Qed.

Lemma isSubExpression_loop_returns
      (rec : MoronRelationExpression -> MoronRelationExpression -> Outcome bool)
      (this expr : MoronRelationExpression) :
  isAllRecursive expr = false ->
  (forall own sub, size own + size sub < size this + size expr ->
                   exists b, rec own sub = Return b) ->
  forall ns, incl ns (nodes expr) ->
             exists b, isSubExpression_loop rec this expr ns = Return b.
Proof.
  intros Hall Hrec ns. induction ns as [|node ns IH]; intros Hincl;
    cbn [isSubExpression_loop]; [now exists true|].
  destruct (isRecursive expr (name node)
            && (isAllRecursive this || isRecursive this (name node)))%bool eqn:Hs;
    [now exists true|].
  destruct (relation this (name node)) as [own|] eqn:Hown; [|now exists false].
  destruct (recursion_decreases this expr own node Hall
              (Hincl node (or_introl eq_refl)) Hs Hown) as (sub & -> & Hlt).
  cbn [arg_of_relation toExpression bind].
  destruct (Hrec own sub Hlt) as (r & ->). cbn [bind].
  destruct (negb r); [now exists false|].
  apply IH. intros x Hx. apply Hincl. now right.
Qed.

(** On two expressions [isSubExpression] returns a boolean: it neither
    throws nor runs out of fuel. *)
Lemma isSubExpression_returns (this expr : MoronRelationExpression) :
  exists b, isSubExpression this (ArgExpression expr) = Return b.
Proof.
  remember (size this + size expr) as n eqn:Hn.
  revert this expr Hn. induction n as [n IH] using lt_wf_ind. intros this expr ->.
  rewrite isSubExpression_unfold. unfold isSubExpression_body.
  destruct (isAllRecursive expr) eqn:Ha; [now eexists|].
  apply isSubExpression_loop_returns; [exact Ha | | apply incl_refl].
  intros own sub Hlt. exact (IH _ Hlt own sub eq_refl).
Qed.

(* ================================================================== *)
(** * Properties of the parser *)

(** C7, as amended. [parse] returns an expression with zero root nodes,
    and does not throw, for every input that is not a string (null,
    undefined, any value that is neither a primitive string nor a
    [String] object) and for the empty primitive string, and for no
    other input; a [String] object that holds a non-empty string is
    parsed as that string. *)
Theorem parse_empty_expression_iff (v : JsValue) :
  ((~ isStringValue v \/ v = JsString "") <-> parse v = Return (Expression []))
  /\ (forall s, s <> ""%string -> parse (JsStringObject s) = parse (JsString s)).
Proof.
  split; [split|].
  - intros [H| ->]; [|reflexivity].
    destruct v as [| | b | z | s | s | id]; try reflexivity;
      exfalso; apply H; exists s; tauto.
  - intros Hp.
    assert (Hstr : forall s,
               (ns <- _parse (S (String.length s)) (Parser s) s ;;
                Return (Expression ns)) <> Return (Expression [])).
    { intros s. destruct (_parse _ _ s) as [ns| |] eqn:Ep; cbn [bind];
        try discriminate.
      intros [= ->]. exact (_parse_nonempty _ _ _ _ Ep eq_refl). }
    destruct v as [| | b | z | s | s | id];
      try (left; intros (s0 & [H|H]); discriminate).
    + destruct s as [|c s]; [now right|]. exfalso. exact (Hstr _ Hp).
    + exfalso. exact (Hstr _ Hp).
  - intros s Hs. destruct s; [contradiction | reflexivity].
Qed.

Lemma parse_empty_expression_iff_witness :
  parse (JsString "") = Return (Expression [])
  /\ parse JsNull = Return (Expression [])
  /\ parse JsUndefined = Return (Expression [])
  /\ parse (JsNumber 42) = Return (Expression [])
  /\ parse (JsStringObject "a.b") = parse (JsString "a.b").
Proof.
  split; [|split; [|split; [|split]]].
  - apply (proj1 (proj1 (parse_empty_expression_iff (JsString "")))). now right.
  - apply (proj1 (proj1 (parse_empty_expression_iff JsNull))).
    left. intros (s & [H|H]); discriminate.
  - apply (proj1 (proj1 (parse_empty_expression_iff JsUndefined))).
    left. intros (s & [H|H]); discriminate.
  - apply (proj1 (proj1 (parse_empty_expression_iff (JsNumber 42)))).
    left. intros (s & [H|H]); discriminate.
  - apply (proj2 (parse_empty_expression_iff JsNull) "a.b"). discriminate.
Defined.

(** C7, as stated, fails on the empty [String] object [new String("")]:
    it is not a non-empty string, [_.isString] accepts it and [!str] is
    false of it as of every object, so that [_parse] runs on it, finds
    the one empty token and throws. *)
Lemma parse_empty_string_object_counterexample :
  ~ nonEmptyString (JsStringObject "")
  /\ parse (JsStringObject "") = Throw (invalidExpression "")
  /\ ~ (~ nonEmptyString (JsStringObject "") ->
        parse (JsStringObject "") = Return (Expression [])).
Proof.
  assert (Hn : ~ nonEmptyString (JsStringObject ""))
    by (intros (s & H & _); discriminate).
  split; [exact Hn|]. split; [vm_compute; reflexivity|].
  intros H. specialize (H Hn). vm_compute in H. discriminate.
Qed.

(** C9. When [parse] returns an expression for a non-empty string, the
    expression has at least one root node: an expression without root
    nodes comes from an input that is not a non-empty string only. *)
Theorem parse_nonempty_has_root (v : JsValue) (E : MoronRelationExpression) :
  nonEmptyString v -> parse v = Return E -> nodes E <> [].
Proof.
  intros (s & -> & Hne).
  destruct (parse_string_cases s) as [[He _]|[_ ->]]; [contradiction|].
  destruct (_parse _ _ s) as [ns| |] eqn:Ep; cbn [bind]; try discriminate.
  intros [= <-]. cbn [nodes]. exact (_parse_nonempty _ _ _ _ Ep).
Qed.

Lemma parse_nonempty_has_root_witness :
  nodes (Expression [Node "a" [Node "b" []]]) <> [].
Proof.
  apply (parse_nonempty_has_root (JsString "a.b")).
  - exists "a.b"%string. split; [reflexivity | discriminate].
  - vm_compute. reflexivity.
Defined.

(** C10. An array token leaves the insertion point where it was, while a
    plain token moves it below the node it adds; so a segment that
    follows an array token is attached beside the branches of the array:
    [parse("a.[b,c].d")] is one root "a" with the three children "b",
    "c", "d". *)
Theorem array_token_keeps_insertion_point :
  (forall this rec tok R ref R' ref',
      _parseArrayToken this rec tok (R, ref) = Return (R', ref') -> ref' = ref)
  /\ (forall this tok R ref R' ref',
         _parseToken this tok (R, ref) = Return (R', ref') ->
         ref' = S ref /\ R' = push ref (Node tok []) R)
  /\ parse (JsString "a.[b,c].d")
     = Return (Expression [Node "a" [Node "b" []; Node "c" []; Node "d" []]]).
Proof.
  split; [|split].
  - intros this rec tok R ref R' ref'. rewrite parseArrayToken_spec.
    destruct (foldM _ _ R); cbn [bind]; try discriminate.
    destruct (negb _); [discriminate|]. now intros [= _ <-].
  - intros this tok R ref R' ref'. unfold _parseToken.
    destruct (Nat.eqb _ _); [discriminate|]. now intros [= <- <-].
  - vm_compute. reflexivity.
Qed.

Lemma array_token_keeps_insertion_point_witness :
  _parseArrayToken (Parser "a.[b,c]") (_parse 8 (Parser "a.[b,c]")) "[b,c]"
                   ([Node "a" []], 1)
  = Return ([Node "a" [Node "b" []; Node "c" []]], 1)
  /\ 1 = 1
  /\ _parseToken (Parser "a.[b,c].d") "d" ([Node "a" [Node "b" []; Node "c" []]], 1)
     = Return ([Node "a" [Node "b" []; Node "c" []; Node "d" []]], 2)
  /\ 2 = 2.
Proof.
  split; [vm_compute; reflexivity|]. split.
  - apply (proj1 array_token_keeps_insertion_point
                 (Parser "a.[b,c]") (_parse 8 (Parser "a.[b,c]")) "[b,c]"
                 [Node "a" []] 1 [Node "a" [Node "b" []; Node "c" []]] 1).
    vm_compute. reflexivity.
  - split; [vm_compute; reflexivity|].
    apply (proj1 (proj2 array_token_keeps_insertion_point)
                 (Parser "a.[b,c].d") "d"
                 [Node "a" [Node "b" []; Node "c" []]] 1
                 [Node "a" [Node "b" []; Node "c" []; Node "d" []]] 2).
    vm_compute. reflexivity.
Defined.

(* ------------------------------------------------------------------ *)
(** ** Array tokens add siblings *)

Lemma push_all_app (ref : ArrayRef) (r1 r2 R : list MoronRelationExpressionNode) :
  push_all ref (r1 ++ r2) R = push_all ref r2 (push_all ref r1 R).
Proof. unfold push_all. apply fold_left_app. Qed.

Lemma push_all_root (rel R : list MoronRelationExpressionNode) :
  push_all O rel R = R ++ rel.
Proof.
  unfold push_all. revert R. induction rel as [|x rel IH]; intros R; cbn [fold_left push].
  - now rewrite app_nil_r.
  - rewrite IH, <- app_assoc. reflexivity.
Qed.

Lemma split_last_snoc {A : Type} (l : list A) (x : A) :
  split_last (l ++ [x]) = Some (l, x).
Proof.
  induction l as [|y l IH]; cbn [app split_last]; [reflexivity|].
  now rewrite IH.
Qed.

Lemma push_all_below (ref : ArrayRef) (rel init ch : list MoronRelationExpressionNode)
      (n : string) :
  push_all (S ref) rel (init ++ [Node n ch])
  = init ++ [Node n (push_all ref rel ch)].
Proof.
  unfold push_all. revert ch. induction rel as [|x rel IH]; intros ch;
    cbn [fold_left push]; [reflexivity|].
  rewrite split_last_snoc. apply IH.
Qed.

Lemma foldM_array_items (rec : string -> Outcome (list MoronRelationExpressionNode))
      (ref : ArrayRef) (us : list string)
      (forests : list (list MoronRelationExpressionNode)) :
  Forall2 (fun u rel => rec u = Return rel) us forests ->
  forall R, foldM (_parseArrayIterator rec ref) us R
            = Return (push_all ref (concat forests) R).
Proof.
  induction 1 as [|u rel us forests Hu _ IH]; intros R; cbn [foldM concat].
  - reflexivity.
  - unfold _parseArrayIterator at 1. rewrite Hu. cbn [bind].
    rewrite IH, push_all_app. reflexivity.
Qed.

(** C8. An array token, stripped of its outer brackets and split on ","
    at depth zero, has each of its sub-tokens parsed as a dotted chain by
    [_parse], and the root nodes of all the results are pushed, in order,
    onto the array at the insertion point, which at the root appends them
    to the roots and below a node appends them to its children; and
    [parse("a.[b,c]")] is one root "a" with the two children "b" and "c",
    in that order. *)
Theorem array_token_adds_siblings :
  (forall this fuel body R ref forests,
      Forall2 (fun u rel => _parse fuel this u = Return rel)
              (spec_tokens "," body) forests ->
      spec_depth "," body = 0%Z ->
      _parseIterator this (_parse fuel this) (String "[" (body ++ "]")) (R, ref)
      = Return (push_all ref (concat forests) R, ref))
  /\ (forall rel R, push_all O rel R = R ++ rel)
  /\ (forall ref rel init n ch,
         push_all (S ref) rel (init ++ [Node n ch])
         = init ++ [Node n (push_all ref rel ch)])
  /\ parse (JsString "a.[b,c]")
     = Return (Expression [Node "a" [Node "b" []; Node "c" []]]).
Proof.
  split; [|split; [|split]].
  - intros this fuel body R ref forests Hsub Hdepth.
    unfold _parseIterator.
    rewrite (proj2 (isArrayToken_iff _) (ex_intro _ body eq_refl)).
    rewrite parseArrayToken_spec, stripArrayChars_body.
    rewrite (foldM_array_items _ ref _ forests Hsub). cbn [bind].
    rewrite Hdepth. reflexivity.
  - apply push_all_root.
  - intros ref rel init n ch. apply push_all_below.
  - vm_compute. reflexivity.
Qed.

Lemma array_token_adds_siblings_witness :
  _parseIterator (Parser "a.[b.c, d]") (_parse 9 (Parser "a.[b.c, d]"))
                 "[b.c, d]" ([Node "a" []], 1)
  = Return ([Node "a" [Node "b" [Node "c" []]; Node "d" []]], 1).
Proof.
  apply (proj1 array_token_adds_siblings (Parser "a.[b.c, d]") 9 "b.c, d"
               [Node "a" []] 1 [[Node "b" [Node "c" []]]; [Node "d" []]]).
  - replace (spec_tokens "," "b.c, d") with ["b.c"; "d"]%string
      by (vm_compute; reflexivity).
    constructor; [vm_compute; reflexivity|].
    constructor; [vm_compute; reflexivity|]. constructor.
  - vm_compute. reflexivity.
Defined.

(* ------------------------------------------------------------------ *)
(** ** The bracket check counts brackets *)

Lemma balance_app (a b : string) :
  balance (a ++ b)%string = (balance a + balance b)%Z.
Proof.
  induction a as [|c a IH]; cbn [append balance]; [reflexivity | rewrite IH; lia].
Qed.

Lemma whitespace_weight (c : ascii) : isWhiteSpace c = true -> bracket_weight c = 0%Z.
Proof.
  unfold bracket_weight. intros H.
  destruct (Ascii.eqb c "[") eqn:Eo.
  - apply Ascii.eqb_eq in Eo. subst c. discriminate.
  - destruct (Ascii.eqb c "]") eqn:Ec; [|reflexivity].
    apply Ascii.eqb_eq in Ec. subst c. discriminate.
Qed.

Lemma balance_trimStart (s : string) : balance (trimStart s) = balance s.
Proof.
  induction s as [|c s IH]; cbn [trimStart balance]; [reflexivity|].
  destruct (isWhiteSpace c) eqn:Ew; [|reflexivity].
  rewrite IH, (whitespace_weight c Ew). reflexivity.
Qed.

Lemma balance_trimEnd (s : string) : balance (trimEnd s) = balance s.
Proof.
  induction s as [|c s IH]; cbn [trimEnd balance]; [reflexivity|].
  destruct (trimEnd s) as [|d r] eqn:Et.
  - cbn [balance] in IH. rewrite <- IH.
    destruct (isWhiteSpace c) eqn:Ew; cbn [balance]; [|reflexivity].
    rewrite (whitespace_weight c Ew). reflexivity.
  - cbn [balance] in *. rewrite IH. reflexivity.
Qed.

Lemma balance_trim (s : string) : balance (trim s) = balance s.
Proof. unfold trim. now rewrite balance_trimEnd, balance_trimStart. Qed.

(** The depth after a scan is the depth before it plus the balance of
    the text scanned, whatever the separator. *)
Lemma spec_scan_depth (separator : ascii) (rest : string) :
  forall depth cur,
    snd (spec_scan separator depth cur rest) = (depth + balance rest)%Z.
Proof.
  induction rest as [|c rest IH]; intros depth cur; cbn [spec_scan balance].
  - cbn [snd]. lia.
  - unfold bracket_weight.
    destruct (Ascii.eqb c "["); [rewrite IH; lia|].
    destruct (Ascii.eqb c "]"); [rewrite IH; lia|].
    destruct (Ascii.eqb c separator && (depth =? 0)%Z)%bool; [|rewrite IH; lia].
    specialize (IH depth ""%string).
    destruct (spec_scan separator depth "" rest) as [ts d]. cbn [snd] in *. lia.
Qed.

(** Every token of a scan has as many "[" as "]". *)
Lemma spec_scan_balanced (separator : ascii) (rest : string) :
  forall depth cur t,
    depth = balance cur ->
    In t (fst (spec_scan separator depth cur rest)) -> balance t = 0%Z.
Proof.
  induction rest as [|c rest IH]; intros depth cur t Hd; cbn [spec_scan].
  - destruct (depth =? 0)%Z eqn:E0; cbn [fst In]; [|tauto].
    apply Z.eqb_eq in E0. intros [<-|[]]. rewrite balance_trim. lia.
  - assert (Hw : balance (cur ++ String c "")%string
                 = (balance cur + bracket_weight c)%Z).
    { rewrite balance_app. cbn [balance]. lia. }
    unfold bracket_weight in Hw.
    destruct (Ascii.eqb c "["); [apply IH; lia|].
    destruct (Ascii.eqb c "]"); [apply IH; lia|].
    destruct (Ascii.eqb c separator && (depth =? 0)%Z)%bool eqn:Es; [|apply IH; lia].
    apply andb_prop in Es as [_ E0]. apply Z.eqb_eq in E0.
    specialize (IH depth ""%string t).
    destruct (spec_scan separator depth "" rest) as [ts d].
    cbn [fst In] in *. intros [<-|H].
    + rewrite balance_trim. lia.
    + apply IH; [cbn [balance]; lia | exact H].
Qed.

(** The bracket check of a scan compares the number of "[" with the
    number of "]" in the text, and the check made on the content of an
    array token never fails: the content of a token that was split off
    at depth zero is balanced. *)
Lemma array_content_depth_zero (sep sep' : ascii) (s body : string) :
  spec_depth sep s = balance s
  /\ (In (String "[" (body ++ "]")%string) (spec_tokens sep s) ->
      spec_depth sep' body = 0%Z).
Proof.
  unfold spec_depth, spec_tokens. rewrite !spec_scan_depth. split; [lia|].
  intros H. apply spec_scan_balanced in H; [|reflexivity].
  cbn [balance] in H. rewrite balance_app in H. cbn [balance] in H.
  change (bracket_weight "[") with 1%Z in H.
  change (bracket_weight "]") with (-1)%Z in H. lia.
Qed.

(* ------------------------------------------------------------------ *)
(** ** Errors *)

(** [parse] on a string throws exactly on the malformed chains of the
    specification, the empty string apart. *)
Lemma parse_throws_iff_bad_chain (s : string) :
  (parse (JsString s) = Throw (invalidExpression s) <-> SpecInvalid s)
  /\ (forall e, parse (JsString s) = Throw e -> e = invalidExpression s)
  /\ ((exists E, parse (JsString s) = Return E) <-> ~ SpecInvalid s).
Proof.
  destruct (parse_string_cases s) as [[-> Hp]|[Hne Hp]]; rewrite Hp.
  - assert (Hgood : ~ SpecInvalid "") by (intros [H _]; congruence).
    split; [split; [discriminate | contradiction]|].
    split; [discriminate|].
    split; [intros _; exact Hgood | intros _; now eexists].
  - pose proof (parse_fuel_enough (Parser s) (S (String.length s)) s
                                  (Nat.lt_succ_diag_r _)) as Hfuel.
    destruct (_parse (S (String.length s)) (Parser s) s) as [ns|e|] eqn:Ep;
      cbn [bind]; [| |congruence].
    + assert (Hgood : ~ SpecInvalid s).
      { intros [_ Hbad]. exact (_parse_bad _ _ Hbad _ _ Ep). }
      split; [split; [discriminate | contradiction]|].
      split; [discriminate|].
      split; [intros _; exact Hgood | intros _; now eexists].
    + destruct (_parse_throw _ _ _ _ Ep) as [-> Hbad]. cbn [str].
      assert (Hinv : SpecInvalid s) by (split; assumption).
      split; [split; [intros _; exact Hinv | reflexivity]|].
      split; [now intros e [= <-]|].
      split; [intros (E & HE); discriminate | contradiction].
Qed.

(** The depth checks of all the scans together hold exactly when the
    whole text has as many "[" as "]". *)
Lemma bad_chain_counts (s : string) :
  SpecBadChain s <-> balance s <> 0%Z \/ EmptyToken s.
Proof.
  split.
  - induction 1 as [s Hd | s Hin | s body Hin Hd | s body u Hin Hu Hbad IH].
    + left. now rewrite <- (proj1 (array_content_depth_zero "." "." s "")).
    + right. now apply empty_here.
    + exfalso. apply Hd.
      exact (proj2 (array_content_depth_zero "." "," s body) Hin).
    + right. destruct IH as [Hb|He]; [|exact (empty_in_array s body u Hin Hu He)].
      exfalso. apply Hb.
      exact (spec_scan_balanced "," body 0 "" u eq_refl Hu).
  - intros [Hb|He].
    + apply bad_brackets. now rewrite (proj1 (array_content_depth_zero "." "." s "")).
    + induction He as [s Hin | s body u Hin Hu _ IH].
      * now apply bad_empty.
      * exact (bad_array_item s body u Hin Hu IH).
Qed.

(** C6, as amended. [parse] throws on a string exactly when the string
    is not empty and either its number of "[" differs from its number of
    "]", or a split produces a token that is empty after trimming: the
    split of the string on "." at depth zero, or the split of the content
    of one of its array tokens on "," and of a part of it on ".", to any
    depth.  What is thrown is the one validation error, with the message
    "invalid relation expression: " followed by the input; any other
    string is parsed to an expression, and no expression comes with an
    error.  The depth checks the scans make, at the top and on the
    content of every array token, amount to that count. *)
Theorem parse_throws_iff_invalid (s : string) :
  (parse (JsString s) = Throw (invalidExpression s) <-> Invalid s)
  /\ (forall e, parse (JsString s) = Throw e -> e = invalidExpression s)
  /\ ((exists E, parse (JsString s) = Return E) <-> ~ Invalid s)
  /\ (SpecBadChain s <-> balance s <> 0%Z \/ EmptyToken s).
Proof.
  destruct (parse_throws_iff_bad_chain s) as (Hthrow & Hmsg & Hret).
  pose proof (bad_chain_counts s) as Hcount.
  assert (Hinv : SpecInvalid s <-> Invalid s).
  { unfold SpecInvalid, Invalid. now rewrite Hcount. }
  split; [now rewrite Hthrow|].
  split; [exact Hmsg|].
  split; [now rewrite Hret, Hinv | exact Hcount].
Qed.

Lemma parse_throws_iff_invalid_witness :
  parse (JsString "a.[b,c") = Throw (invalidExpression "a.[b,c")
  /\ parse (JsString "a..b") = Throw (invalidExpression "a..b")
  /\ parse (JsString "a.[b,[c..d]]") = Throw (invalidExpression "a.[b,[c..d]]").
Proof.
  split; [|split].
  - apply (proj1 (parse_throws_iff_invalid "a.[b,c")).
    split; [discriminate|]. left. vm_compute. discriminate.
  - apply (proj1 (parse_throws_iff_invalid "a..b")).
    split; [discriminate|]. right. apply empty_here. vm_compute. tauto.
  - apply (proj1 (parse_throws_iff_invalid "a.[b,[c..d]]")).
    split; [discriminate|]. right.
    apply (empty_in_array _ "b,[c..d]" "[c..d]");
      [vm_compute; tauto | vm_compute; tauto |].
    apply (empty_in_array _ "c..d" "c..d");
      [vm_compute; tauto | vm_compute; tauto |].
    apply empty_here. vm_compute. tauto.
Defined.

(** C6, as stated, fails on "]a[": its brackets are not balanced, the
    "]" comes before the "[", but they are equal in number, and [parse]
    returns one node named "]a[". *)
Lemma unbalanced_brackets_counterexample :
  brackets_balanced "]a[" = false
  /\ parse (JsString "]a[") = Return (Expression [Node "]a[" []])
  /\ ~ (parse (JsString "]a[") = Throw (invalidExpression "]a[")
        <-> EmptyToken "]a[" \/ brackets_balanced "]a[" = false).
Proof.
  split; [reflexivity|]. split; [vm_compute; reflexivity|].
  intros [_ H].
  assert (Hp : parse (JsString "]a[") = Return (Expression [Node "]a[" []]))
    by (vm_compute; reflexivity).
  rewrite Hp in H. discriminate H. right. reflexivity.
Qed.

(** The same holds of brackets closed before a separator and opened
    after it, and separators between the brackets of a token that is not
    an array token are part of the name. *)
Remark misordered_brackets_are_names :
  parse (JsString "a].[b") = Return (Expression [Node "a].[b" []])
  /\ parse (JsString "a[..]b") = Return (Expression [Node "a[..]b" []]).
Proof. split; vm_compute; reflexivity. Qed.

(* ================================================================== *)
(** * Properties of the queries *)

Lemma caret_test (nd : MoronRelationExpressionNode) :
  (Nat.eqb (List.length (children nd)) 1
   && name_is (nth_error (children nd) 0) "^")%bool = true
  <-> only_child_is_caret nd.
Proof.
  unfold only_child_is_caret. destruct (children nd) as [|c [|c' ch]]; cbn.
  - split; [discriminate | intros (c & H & _); discriminate].
  - rewrite String.eqb_eq. split.
    + intros H. now exists c.
    + now intros (c0 & [= <-] & H).
  - split; [discriminate | intros (c0 & H & _); discriminate].
Qed.

Lemma isRecursive_loop_first (ns : list MoronRelationExpressionNode) (n : string) :
  isRecursive_loop ns n = true
  <-> exists nd, first_named ns n nd /\ only_child_is_caret nd.
Proof.
  induction ns as [|x ns IH]; cbn [isRecursive_loop].
  - split; [discriminate|].
    intros (nd & (pre & post & H & _) & _). destruct pre; discriminate.
  - destruct (String.eqb (name x) n) eqn:En.
    + apply String.eqb_eq in En. rewrite caret_test. split.
      * intros H. exists x. split; [|exact H].
        exists [], ns. repeat split; [intros m [] | exact En].
      * intros (nd & (pre & post & H & Hpre & Hn) & Hc).
        destruct pre as [|p pre].
        -- cbn in H. injection H as -> _. exact Hc.
        -- cbn in H. injection H as <- _. exfalso.
           apply (Hpre x (or_introl eq_refl) En).
    + apply String.eqb_neq in En. rewrite IH. split.
      * intros (nd & (pre & post & -> & Hpre & Hn) & Hc). exists nd. split; [|exact Hc].
        exists (x :: pre), post. repeat split; [|exact Hn].
        intros m [<-|Hm]; [exact En | exact (Hpre m Hm)].
      * intros (nd & (pre & post & H & Hpre & Hn) & Hc).
        destruct pre as [|p pre].
        -- cbn in H. injection H as <- _. contradiction.
        -- cbn in H. injection H as <- ->. exists nd. split; [|exact Hc].
           exists pre, post. repeat split; [|exact Hn].
           intros m Hm. apply Hpre. now right.
Qed.

(** C3, as amended. [isRecursive E n] is true if and only if the first
    root node of [E] named [n] has exactly one child, named "^"; and
    [parse("a.^").isRecursive("a")] is true, [parse("a.b").isRecursive("a")]
    is false. *)
Theorem isRecursive_first_root (E : MoronRelationExpression) (n : string) :
  (isRecursive E n = true
   <-> exists nd, first_named (nodes E) n nd /\ only_child_is_caret nd)
  /\ (exists Ea, parse (JsString "a.^") = Return Ea /\ isRecursive Ea "a" = true)
  /\ (exists Eb, parse (JsString "a.b") = Return Eb /\ isRecursive Eb "a" = false).
Proof.
  split; [apply isRecursive_loop_first|].
  split; eexists; (split; [vm_compute; reflexivity | reflexivity]).
Qed.

Lemma isRecursive_first_root_witness :
  isRecursive (Expression [Node "b" []; Node "a" [Node "^" []]; Node "a" []]) "a"
  = true.
Proof.
  apply (proj1 (isRecursive_first_root
                  (Expression [Node "b" []; Node "a" [Node "^" []]; Node "a" []])
                  "a")).
  exists (Node "a" [Node "^" []]). split.
  - exists [Node "b" []], [Node "a" []]. cbn.
    split; [reflexivity | split; [|reflexivity]].
    intros m [<-|[]]. cbn. discriminate.
  - exists (Node "^" []). split; reflexivity.
Defined.

(** C3, as stated, fails on [parse("[a.b,a.^]")]: the second root node is
    named "a" and has the one child "^", and [isRecursive("a")], which
    looks at the first root node named "a" only, is false. *)
Lemma isRecursive_some_root_counterexample :
  let E := Expression [Node "a" [Node "b" []]; Node "a" [Node "^" []]] in
  parse (JsString "[a.b,a.^]") = Return E
  /\ ~ (isRecursive E "a" = true
        <-> exists nd, In nd (nodes E) /\ name nd = "a"%string
                       /\ only_child_is_caret nd).
Proof.
  cbv zeta. split; [vm_compute; reflexivity|].
  intros [_ H].
  assert (Hfalse : isRecursive
                     (Expression [Node "a" [Node "b" []]; Node "a" [Node "^" []]])
                     "a" = false) by reflexivity.
  rewrite H in Hfalse; [discriminate|].
  exists (Node "a" [Node "^" []]). split; [right; now left|].
  split; [reflexivity|]. exists (Node "^" []). split; reflexivity.
Qed.

Lemma relation_loop_first (this : MoronRelationExpression)
      (ns : list MoronRelationExpressionNode) (n : string)
      (nd : MoronRelationExpressionNode) :
  first_named ns n nd ->
  relation_loop this ns n
  = Some (if isRecursive this n then Expression [nd] else Expression (children nd)).
Proof.
  intros (pre & post & -> & Hpre & Hn).
  induction pre as [|p pre IH]; cbn [app relation_loop].
  - rewrite Hn, String.eqb_refl. cbn [negb].
    destruct (isRecursive this n); reflexivity.
  - destruct (String.eqb (name p) n) eqn:Ep.
    + apply String.eqb_eq in Ep. exfalso. exact (Hpre p (or_introl eq_refl) Ep).
    + cbn [negb]. apply IH. intros m Hm. apply Hpre. now right.
Qed.

Lemma relation_loop_none (this : MoronRelationExpression)
      (ns : list MoronRelationExpressionNode) (n : string) :
  (forall m, In m ns -> name m <> n) -> relation_loop this ns n = None.
Proof.
  induction ns as [|x ns IH]; intros H; cbn [relation_loop]; [reflexivity|].
  destruct (String.eqb (name x) n) eqn:Ex.
  - apply String.eqb_eq in Ex. exfalso. exact (H x (or_introl eq_refl) Ex).
  - cbn [negb]. apply IH. intros m Hm. apply H. now right.
Qed.

(** C2. If [E] is the all-recursive wildcard, [relation E n] is [E]
    itself.  Otherwise the root nodes are scanned in order: for the
    first root node named [n] the result is an expression whose single
    root is that node when [isRecursive E n] holds, and an expression of
    that node's children when it does not; when no root node is named
    [n] the result is null, which is not an expression without nodes. *)
Theorem relation_cases (E : MoronRelationExpression) (n : string) :
  (isAllRecursive E = true -> relation E n = Some E)
  /\ (isAllRecursive E = false ->
      forall nd, first_named (nodes E) n nd ->
                 (isRecursive E n = true -> relation E n = Some (Expression [nd]))
                 /\ (isRecursive E n = false ->
                     relation E n = Some (Expression (children nd))))
  /\ (isAllRecursive E = false ->
      (forall m, In m (nodes E) -> name m <> n) ->
      relation E n = None /\ relation E n <> Some (Expression [])).
Proof.
  unfold relation. split; [|split].
  - now intros ->.
  - intros -> nd Hfirst. rewrite (relation_loop_first E _ n nd Hfirst).
    split; now intros ->.
  - intros -> Hnone. rewrite (relation_loop_none E _ n Hnone).
    split; [reflexivity | discriminate].
Qed.

Lemma relation_cases_witness :
  let star := Expression [Node "*" []] in
  let E := Expression [Node "a" [Node "^" []]; Node "b" [Node "c" []]] in
  relation star "x" = Some star
  /\ relation E "a" = Some (Expression [Node "a" [Node "^" []]])
  /\ relation E "b" = Some (Expression [Node "c" []])
  /\ relation E "z" = None.
Proof.
  cbv zeta. split; [|split; [|split]].
  - apply (proj1 (relation_cases (Expression [Node "*" []]) "x")). reflexivity.
  - apply (proj1 (proj2 (relation_cases
             (Expression [Node "a" [Node "^" []]; Node "b" [Node "c" []]]) "a"))
             eq_refl (Node "a" [Node "^" []])).
    + exists [], [Node "b" [Node "c" []]]. cbn.
      split; [reflexivity | split; [intros m [] | reflexivity]].
    + reflexivity.
  - apply (proj1 (proj2 (relation_cases
             (Expression [Node "a" [Node "^" []]; Node "b" [Node "c" []]]) "b"))
             eq_refl (Node "b" [Node "c" []])).
    + exists [Node "a" [Node "^" []]], []. cbn.
      split; [reflexivity | split; [|reflexivity]].
      intros m [<-|[]]. cbn. discriminate.
    + reflexivity.
  - apply (proj2 (proj2 (relation_cases
             (Expression [Node "a" [Node "^" []]; Node "b" [Node "c" []]]) "z"))
             eq_refl).
    intros m [<-|[<-|[]]]; cbn; discriminate.
Defined.

(** C4. If the argument is the all-recursive wildcard, the result of
    [isSubExpression] is [isAllRecursive] of the receiver, whether the
    argument is given as an expression or as a value to parse. *)
Theorem isSubExpression_of_wildcard (A B : MoronRelationExpression)
        (arg : SubExpressionArg) :
  toExpression arg = Return B ->
  isAllRecursive B = true ->
  isSubExpression A arg = Return (isAllRecursive A).
Proof.
  intros Harg Hall. unfold isSubExpression. rewrite Harg.
  cbn [bind isSubExpression_fuel]. unfold isSubExpression_body.
  now rewrite Hall.
Qed.

Lemma isSubExpression_of_wildcard_witness :
  isSubExpression (Expression [Node "a" [Node "b" []]]) (ArgValue (JsString "*"))
  = Return false
  /\ isSubExpression (Expression [Node "*" []])
                     (ArgExpression (Expression [Node "*" [Node "a" []]]))
     = Return true.
Proof.
  split.
  - apply (isSubExpression_of_wildcard (Expression [Node "a" [Node "b" []]])
                                       (Expression [Node "*" []])).
    + vm_compute. reflexivity.
    + reflexivity.
  - apply (isSubExpression_of_wildcard (Expression [Node "*" []])
                                       (Expression [Node "*" [Node "a" []]])).
    + reflexivity.
    + reflexivity.
Defined.

Lemma loop_short_circuit (A B : MoronRelationExpression)
      (pre post : list MoronRelationExpressionNode)
      (nd : MoronRelationExpressionNode) :
  Forall (iteration_passes A B) pre ->
  isRecursive B (name nd) = true ->
  (isAllRecursive A || isRecursive A (name nd))%bool = true ->
  isSubExpression_loop isSubExpression_call A B (pre ++ nd :: post) = Return true.
Proof.
  intros Hpre Hb Ha. induction Hpre as [|m pre Hm _ IH];
    cbn [app isSubExpression_loop].
  - now rewrite Hb, Ha.
  - destruct (isRecursive B (name m)
              && (isAllRecursive A || isRecursive A (name m)))%bool; [reflexivity|].
    destruct Hm as (own & sub & -> & -> & Hsub).
    cbn [arg_of_relation toExpression bind]. unfold isSubExpression_call at 1.
    rewrite Hsub. cbn [bind negb]. exact IH.
Qed.

(** C1. When the argument [B], given as an expression or parsed from a
    value, is not the all-recursive wildcard and the scan of the root
    nodes of [B] reaches a node named [n] (every iteration before it went
    on to the next node) such that [B] is recursive at [n] and [A] is
    all-recursive or recursive at [n], [A.isSubExpression(B)] returns
    true, whatever root nodes follow in [B] and whether or not their
    names are relations of [A]. *)
Theorem isSubExpression_short_circuit (A B : MoronRelationExpression)
        (arg : SubExpressionArg)
        (pre post : list MoronRelationExpressionNode)
        (nd : MoronRelationExpressionNode) :
  toExpression arg = Return B ->
  isAllRecursive B = false ->
  nodes B = pre ++ nd :: post ->
  Forall (iteration_passes A B) pre ->
  isRecursive B (name nd) = true ->
  (isAllRecursive A || isRecursive A (name nd))%bool = true ->
  isSubExpression A arg = Return true.
Proof.
  intros Harg Hall Hnodes Hpre Hb Ha.
  assert (Heq : isSubExpression A arg = isSubExpression A (ArgExpression B)).
  { unfold isSubExpression. now rewrite Harg. }
  rewrite Heq, isSubExpression_unfold. unfold isSubExpression_body.
  rewrite Hall, Hnodes. now apply loop_short_circuit.
Qed.

Lemma isSubExpression_short_circuit_witness :
  let A := Expression [Node "b" []; Node "a" [Node "^" []]] in
  let B := Expression [Node "b" []; Node "a" [Node "^" []]; Node "c" [Node "d" []]] in
  relation A "c" = None
  /\ isSubExpression A (ArgExpression B) = Return true.
Proof.
  cbv zeta. split; [reflexivity|].
  apply (isSubExpression_short_circuit
           (Expression [Node "b" []; Node "a" [Node "^" []]])
           (Expression [Node "b" []; Node "a" [Node "^" []]; Node "c" [Node "d" []]])
           (ArgExpression
              (Expression [Node "b" []; Node "a" [Node "^" []]; Node "c" [Node "d" []]]))
           [Node "b" []] [Node "c" [Node "d" []]] (Node "a" [Node "^" []])).
  - reflexivity.
  - reflexivity.
  - reflexivity.
  - constructor; [|constructor].
    exists (Expression []), (Expression []).
    split; [reflexivity | split; [reflexivity | vm_compute; reflexivity]].
  - reflexivity.
  - reflexivity.
Defined.

Lemma reflexive_loop (E : MoronRelationExpression) :
  isAllRecursive E = false ->
  (forall E', size E' < size E -> isSubExpression_call E' E' = Return true) ->
  forall ns, incl ns (nodes E) ->
             isSubExpression_loop isSubExpression_call E E ns = Return true.
Proof.
  intros Hall Hrec ns. induction ns as [|node ns IH]; intros Hincl;
    cbn [isSubExpression_loop]; [reflexivity|].
  destruct (isRecursive E (name node)
            && (isAllRecursive E || isRecursive E (name node)))%bool eqn:Hs;
    [reflexivity|].
  assert (Hr : isRecursive E (name node) = false).
  { rewrite Hall in Hs. cbn [orb] in Hs. now destruct (isRecursive E (name node)). }
  destruct (relation E (name node)) as [own|] eqn:Hown.
  2:{ unfold relation in Hown. rewrite Hall in Hown.
      apply relation_loop_in in Hown; [contradiction|].
      apply Hincl. now left. }
  destruct (relation_size E own (name node) Hown) as [_ Hlt].
  cbn [arg_of_relation toExpression bind].
  rewrite (Hrec own (Hlt Hall Hr)). cbn [bind negb].
  apply IH. intros x Hx. apply Hincl. now right.
Qed.

(** Every expression contains itself. *)
Lemma isSubExpression_refl (E : MoronRelationExpression) :
  isSubExpression E (ArgExpression E) = Return true.
Proof.
  remember (size E) as k eqn:Hk. revert E Hk.
  induction k as [k IH] using lt_wf_ind. intros E ->.
  rewrite isSubExpression_unfold. unfold isSubExpression_body.
  destruct (isAllRecursive E) eqn:Hall; [reflexivity|].
  apply reflexive_loop; [exact Hall | | apply incl_refl].
  intros E' Hlt. exact (IH _ Hlt E' eq_refl).
Qed.

(** C5. For every expression [E] a successful parse produces,
    [E.isSubExpression(E)] returns true, also when the argument is the
    parsed input itself, which is parsed again. *)
Theorem isSubExpression_reflexive (v : JsValue) (E : MoronRelationExpression) :
  parse v = Return E ->
  isSubExpression E (ArgExpression E) = Return true
  /\ isSubExpression E (ArgValue v) = Return true.
Proof.
  intros Hp. split; [apply isSubExpression_refl|].
  pose proof (isSubExpression_refl E) as H.
  unfold isSubExpression in *. cbn [toExpression bind] in *. rewrite Hp.
  exact H.
Qed.

Lemma isSubExpression_reflexive_witness :
  let E := Expression [Node "a" [Node "b" [Node "^" []]; Node "*" []];
                       Node "a" [Node "^" []]] in
  isSubExpression E (ArgExpression E) = Return true
  /\ isSubExpression E (ArgValue (JsString "[a.[b.^,*],a.^]")) = Return true.
Proof.
  cbv zeta.
  apply (isSubExpression_reflexive (JsString "[a.[b.^,*],a.^]")).
  vm_compute. reflexivity.
Defined.

(* ================================================================== *)
(** * Remarks on the early return of [isSubExpression] *)

(** The early return needs the scan to reach the recursive relation: a
    root name of the argument that is scanned before it and is missing
    from the receiver returns false first. *)
Remark early_return_follows_scan_order :
  let A := Expression [Node "a" [Node "^" []]; Node "b" []] in
  isSubExpression A (ArgExpression (Expression [Node "a" [Node "^" []]; Node "c" []]))
  = Return true
  /\ isSubExpression A (ArgExpression (Expression [Node "c" []; Node "a" [Node "^" []]]))
     = Return false.
Proof. split; vm_compute; reflexivity. Qed.

(** An all-recursive argument is answered before the scan starts. *)
Remark wildcard_argument_precedes_scan :
  let A := Expression [Node "*" [Node "^" []]; Node "b" []] in
  let B := Expression [Node "*" [Node "^" []]] in
  isRecursive A "*" = true /\ isRecursive B "*" = true
  /\ isSubExpression A (ArgExpression B) = Return false.
Proof. repeat split. Qed.

(* ================================================================== *)
(** * The parser builds the tree of the chain *)

Lemma split_last_inv {A : Type} (l init : list A) (z : A) :
  split_last l = Some (init, z) -> l = init ++ [z].
Proof.
  revert init. induction l as [|x l IH]; intros init; cbn [split_last]; [discriminate|].
  destruct (split_last l) as [[i y]|] eqn:E.
  - intros [= <- <-]. cbn [app]. now rewrite (IH i eq_refl).
  - intros [= <- <-]. destruct l as [|y l]; [reflexivity|].
    cbn [split_last] in E. destruct (split_last l) as [[? ?]|]; discriminate.
Qed.

Lemma push_keeps_valid (ref : ArrayRef) (x : MoronRelationExpressionNode) :
  forall R, valid_ref ref R -> valid_ref ref (push ref x R).
Proof.
  induction ref as [|ref IH]; intros R; cbn [valid_ref push]; [tauto|].
  destruct (split_last R) as [[init [n ch]]|] eqn:E; [|tauto].
  cbn [children]. intros H. rewrite split_last_snoc. cbn [children]. now apply IH.
Qed.

Lemma push_all_keeps_valid (ref : ArrayRef) (rel : list MoronRelationExpressionNode) :
  forall R, valid_ref ref R -> valid_ref ref (push_all ref rel R).
Proof.
  unfold push_all. induction rel as [|x rel IH]; intros R H; cbn [fold_left];
    [exact H|].
  apply IH. now apply push_keeps_valid.
Qed.

Lemma push_new_valid (ref : ArrayRef) (t : string) :
  forall R, valid_ref ref R -> valid_ref (S ref) (push ref (Node t []) R).
Proof.
  induction ref as [|ref IH]; intros R.
  - intros _. cbn [push valid_ref]. rewrite split_last_snoc. exact I.
  - cbn [valid_ref push].
    destruct (split_last R) as [[init [n ch]]|] eqn:E; [|tauto].
    cbn [children]. intros H. rewrite split_last_snoc. cbn [children].
    exact (IH ch H).
Qed.

(** What is pushed below a node that was just pushed are its children. *)
Lemma push_all_into_new (ref : ArrayRef) (t : string)
      (f : list MoronRelationExpressionNode) :
  forall R, valid_ref ref R ->
            push_all (S ref) f (push ref (Node t []) R) = push ref (Node t f) R.
Proof.
  induction ref as [|ref IH]; intros R.
  - intros _. cbn [push]. rewrite push_all_below, push_all_root. reflexivity.
  - cbn [valid_ref]. cbn [push].
    destruct (split_last R) as [[init [n ch]]|] eqn:E; [|tauto].
    cbn [children]. intros H. rewrite push_all_below, (IH ch H). reflexivity.
Qed.

Section ChainCorrect.
Variable this : MoronRelationExpressionParser.
Variable rec : string -> Outcome (list MoronRelationExpressionNode).

Lemma foldM_array_items_chain (ref : ArrayRef) (us : list string) :
  forall R, foldM (_parseArrayIterator rec ref) us R
            = (items <- array_items rec us ;; Return (push_all ref items R)).
Proof.
  induction us as [|u us IH]; intros R; cbn [foldM array_items bind];
    [reflexivity|].
  unfold _parseArrayIterator at 1.
  destruct (rec u) as [rel| |]; cbn [bind]; try reflexivity.
  rewrite IH. destruct (array_items rec us) as [rest| |]; cbn [bind]; try reflexivity.
  now rewrite push_all_app.
Qed.

Lemma foldM_chain (ts : list string) :
  forall R ref,
    valid_ref ref R ->
    (st <- foldM (_parseIterator this rec) ts (R, ref) ;; Return (fst st))
    = (f <- chain_forest this rec ts ;; Return (push_all ref f R)).
Proof.
  induction ts as [|t ts IH]; intros R ref Hv; cbn [foldM chain_forest bind];
    [reflexivity|].
  unfold _parseIterator at 1. destruct (isArrayToken t).
  - rewrite parseArrayToken_spec, foldM_array_items_chain.
    destruct (array_items rec _) as [items| |]; cbn [bind]; try reflexivity.
    destruct (negb _); [reflexivity|]. cbn [bind].
    etransitivity; [exact (IH _ ref (push_all_keeps_valid ref items R Hv))|].
    destruct (chain_forest this rec ts) as [rest| |]; cbn [bind]; try reflexivity.
    now rewrite push_all_app.
  - unfold _parseToken. destruct (Nat.eqb (String.length t) 0); [reflexivity|].
    cbn [bind].
    etransitivity; [exact (IH _ (S ref) (push_new_valid ref t R Hv))|].
    destruct (chain_forest this rec ts) as [rest| |]; cbn [bind]; try reflexivity.
    now rewrite (push_all_into_new ref t rest R Hv).
Qed.

(** The body of [_parse] returns the forest of the tokens of the text. *)
Lemma parse_body_chain (s : string) :
  _parse_body this rec s
  = (f <- chain_forest this rec (spec_tokens "." s) ;;
     if negb (spec_depth "." s =? 0)%Z
     then _throwInvalidExpressionError this
     else Return f).
Proof.
  rewrite parse_body_spec.
  pose proof (foldM_chain (spec_tokens "." s) [] O I) as H.
  destruct (foldM _ _ _) as [st| |]; cbn [bind] in *;
    destruct (chain_forest this rec _) as [f| |]; cbn [bind] in *;
    try discriminate; try reflexivity.
  - injection H as ->. now rewrite push_all_root.
  - now injection H as ->.
Qed.
End ChainCorrect.

Lemma array_items_ext (rec1 rec2 : string -> Outcome (list MoronRelationExpressionNode))
      (us : list string) :
  (forall u, In u us -> rec1 u = rec2 u) ->
  array_items rec1 us = array_items rec2 us.
Proof.
  induction us as [|u us IH]; intros H; cbn [array_items]; [reflexivity|].
  rewrite (H u (or_introl eq_refl)), IH; [reflexivity|].
  intros v Hv. apply H. now right.
Qed.

Lemma chain_forest_ext (this : MoronRelationExpressionParser)
      (rec1 rec2 : string -> Outcome (list MoronRelationExpressionNode))
      (ts : list string) :
  (forall t u, In t ts -> isArrayToken t = true ->
               In u (spec_tokens "," (stripArrayChars t)) -> rec1 u = rec2 u) ->
  chain_forest this rec1 ts = chain_forest this rec2 ts.
Proof.
  induction ts as [|t ts IH]; intros H; cbn [chain_forest]; [reflexivity|].
  rewrite IH by (intros t0 u Ht0; apply H; now right).
  destruct (isArrayToken t) eqn:Ea; [|reflexivity].
  rewrite (array_items_ext rec1 rec2); [reflexivity|].
  intros u Hu. exact (H t u (or_introl eq_refl) Ea Hu).
Qed.

(** The equation of [_parse], with the fuel that [parse] gives it. *)
Lemma _parse_chain (this : MoronRelationExpressionParser) (s : string) :
  _parse (S (String.length s)) this s
  = (f <- chain_forest this (fun u => _parse (S (String.length u)) this u)
                       (spec_tokens "." s) ;;
     if negb (balance s =? 0)%Z
     then _throwInvalidExpressionError this
     else Return f).
Proof.
  cbn [_parse]. rewrite parse_body_chain.
  rewrite (proj1 (array_content_depth_zero "." "." s "")).
  rewrite (chain_forest_ext this (_parse (String.length s) this)
                            (fun u => _parse (S (String.length u)) this u));
    [reflexivity|].
  intros t u Ht Ha Hu.
  apply spec_tokens_length in Ht. apply spec_tokens_length in Hu.
  pose proof (stripArrayChars_length t Ha).
  apply parse_fuel_irrelevant; lia.
Qed.

(** X1. The tree the parser builds by pushing onto the arrays it holds
    is the tree of the description [chain_forest]: the body of [_parse]
    returns the forest of the chain of the tokens of the text, whatever
    parses the parts of the array tokens, and throws afterwards when the
    text has not as many "[" as "]"; and [_parse] is that forest with
    [_parse] itself on the parts of the array tokens. *)
Theorem parse_is_chain_forest (this : MoronRelationExpressionParser) (s : string) :
  (forall rec,
      _parse_body this rec s
      = (f <- chain_forest this rec (spec_tokens "." s) ;;
         if negb (balance s =? 0)%Z
         then _throwInvalidExpressionError this
         else Return f))
  /\ _parse (S (String.length s)) this s
     = (f <- chain_forest this (fun u => _parse (S (String.length u)) this u)
                          (spec_tokens "." s) ;;
        if negb (balance s =? 0)%Z
        then _throwInvalidExpressionError this
        else Return f).
Proof.
  split.
  - intros rec. rewrite parse_body_chain.
    now rewrite (proj1 (array_content_depth_zero "." "." s "")).
  - apply _parse_chain.
Qed.

(* ================================================================== *)
(** * The tokenizer *)

(** X2. For a separator that is not a bracket, [_forEachToken] runs the
    callback on the trimmed segments between the separators at depth
    zero, in order, stops at the first callback that throws, and after
    the last one throws the validation error exactly when the text has
    not as many "[" as "]". *)
Theorem forEachToken_contract {St : Type} (this : MoronRelationExpressionParser)
        (separator : ascii) (callback : string -> St -> Outcome St)
        (s : string) (st : St) :
  Ascii.eqb separator "[" = false ->
  Ascii.eqb separator "]" = false ->
  _forEachToken this s separator callback st
  = (st' <- foldM callback (spec_tokens separator s) st ;;
     if negb (balance s =? 0)%Z
     then _throwInvalidExpressionError this
     else Return st').
Proof.
  intros Ho Hc. rewrite (forEachToken_spec this separator callback Ho Hc).
  now rewrite (proj1 (array_content_depth_zero separator separator s "")).
Qed.

Lemma forEachToken_contract_witness :
  _forEachToken (Parser "x") " a , [b,c] ,d" ","
                (fun t acc => Return (acc ++ [t])) []
  = Return ["a"; "[b,c]"; "d"]%string
  /\ _forEachToken (Parser "x") "a,b]" ","
                   (fun t acc => Return (acc ++ [t])) []
     = Throw (invalidExpression "x").
Proof.
  split.
  - etransitivity;
      [apply (forEachToken_contract (Parser "x") ","
                (fun t acc => Return (acc ++ [t])) " a , [b,c] ,d" []);
       reflexivity|].
    vm_compute. reflexivity.
  - etransitivity;
      [apply (forEachToken_contract (Parser "x") ","
                (fun t acc => Return (acc ++ [t])) "a,b]" []);
       reflexivity|].
    vm_compute. reflexivity.
Defined.

(* ================================================================== *)
(** * The names of the nodes *)

Lemma trimStart_idempotent (s : string) : trimStart (trimStart s) = trimStart s.
Proof.
  induction s as [|c s IH]; cbn [trimStart]; [reflexivity|].
  destruct (isWhiteSpace c) eqn:Ew; [exact IH|].
  cbn [trimStart]. now rewrite Ew.
Qed.

Lemma trimEnd_idempotent (s : string) : trimEnd (trimEnd s) = trimEnd s.
Proof.
  induction s as [|c s IH]; cbn [trimEnd]; [reflexivity|].
  destruct (trimEnd s) as [|d r] eqn:Er.
  - destruct (isWhiteSpace c) eqn:Ew; cbn [trimEnd]; [reflexivity|].
    now rewrite Ew.
  - cbn [trimEnd]. cbn [trimEnd] in IH. rewrite IH. reflexivity.
Qed.

Lemma trimStart_fixed_head (c : ascii) (s : string) :
  trimStart (String c s) = String c s -> isWhiteSpace c = false.
Proof.
  cbn [trimStart]. destruct (isWhiteSpace c); [|reflexivity].
  intros H. pose proof (trimStart_length s) as Hl. rewrite H in Hl.
  cbn [String.length] in Hl. lia.
Qed.

Lemma trimStart_trimEnd (s : string) :
  trimStart s = s -> trimStart (trimEnd s) = trimEnd s.
Proof.
  destruct s as [|c s]; [reflexivity|]. intros H.
  apply trimStart_fixed_head in H. cbn [trimEnd].
  destruct (trimEnd s); rewrite ?H; cbn [trimStart]; now rewrite H.
Qed.

Lemma trim_idempotent (s : string) : trim (trim s) = trim s.
Proof.
  unfold trim.
  rewrite (trimStart_trimEnd (trimStart s) (trimStart_idempotent s)).
  apply trimEnd_idempotent.
Qed.

(** Every token of a scan is trimmed. *)
Lemma spec_scan_trimmed (separator : ascii) (rest : string) :
  forall depth cur t,
    In t (fst (spec_scan separator depth cur rest)) -> trim t = t.
Proof.
  induction rest as [|c rest IH]; intros depth cur t; cbn [spec_scan].
  - destruct (depth =? 0)%Z; cbn [fst In]; [|tauto].
    intros [<-|[]]. apply trim_idempotent.
  - destruct (Ascii.eqb c "["); [apply IH|].
    destruct (Ascii.eqb c "]"); [apply IH|].
    destruct (Ascii.eqb c separator && (depth =? 0)%Z)%bool; [|apply IH].
    specialize (IH depth ""%string t).
    destruct (spec_scan separator depth "" rest) as [ts d].
    cbn [fst In] in *. intros [<-|H]; [apply trim_idempotent | exact (IH H)].
Qed.

Section ChainNames.
Variable this : MoronRelationExpressionParser.
Variable rec : string -> Outcome (list MoronRelationExpressionNode).
Variable P : string -> Prop.
Hypothesis rec_names : forall u rel, rec u = Return rel -> Forall (AllNames P) rel.

Lemma array_items_names (us : list string) :
  forall items, array_items rec us = Return items -> Forall (AllNames P) items.
Proof.
  induction us as [|u us IH]; intros items; cbn [array_items].
  - intros [= <-]. constructor.
  - destruct (rec u) as [rel| |] eqn:Eu; cbn [bind]; try discriminate.
    destruct (array_items rec us) as [rest| |]; cbn [bind]; try discriminate.
    intros [= <-]. apply Forall_app. split; [exact (rec_names u rel Eu) | now apply IH].
Qed.

Lemma chain_forest_names (ts : list string) :
  (forall t, In t ts -> isArrayToken t = false -> t <> ""%string -> P t) ->
  forall f, chain_forest this rec ts = Return f -> Forall (AllNames P) f.
Proof.
  induction ts as [|t ts IH]; intros Hts f; cbn [chain_forest].
  - intros [= <-]. constructor.
  - assert (Hrest : forall g, chain_forest this rec ts = Return g -> Forall (AllNames P) g).
    { apply IH. intros t0 Ht0. apply Hts. now right. }
    destruct (isArrayToken t) eqn:Ea.
    + destruct (array_items rec _) as [items| |] eqn:Ei; cbn [bind]; try discriminate.
      destruct (negb _); [discriminate|].
      destruct (chain_forest this rec ts) as [rest| |]; cbn [bind]; try discriminate.
      intros [= <-]. apply Forall_app.
      split; [exact (array_items_names _ _ Ei) | now apply Hrest].
    + destruct (Nat.eqb (String.length t) 0) eqn:El; [discriminate|].
      destruct (chain_forest this rec ts) as [rest| |]; cbn [bind]; try discriminate.
      intros [= <-]. constructor; [|constructor]. constructor; [|now apply Hrest].
      apply (Hts t (or_introl eq_refl) Ea). intros ->. discriminate.
Qed.
End ChainNames.

Lemma _parse_names (this : MoronRelationExpressionParser) (fuel : nat) :
  forall s f, _parse fuel this s = Return f -> Forall (AllNames clean_name) f.
Proof.
  induction fuel as [|fuel IH]; intros s f; cbn [_parse]; [discriminate|].
  rewrite parse_body_chain.
  destruct (chain_forest _ _ _) as [g| |] eqn:Ec; cbn [bind]; try discriminate.
  destruct (negb _); [discriminate|]. intros [= <-].
  refine (chain_forest_names this _ clean_name IH _ _ g Ec).
  intros t Ht Ha Hne. repeat split; try assumption.
  - exact (spec_scan_trimmed "." s 0 "" t Ht).
  - exact (spec_scan_balanced "." s 0 "" t eq_refl Ht).
Qed.

(** X3. In every expression [parse] returns, the name of every node, at
    any depth, is not empty, has no white space at its ends, has as many
    "[" as "]" and is not of the form "[...]". *)
Theorem parse_names_clean (v : JsValue) (E : MoronRelationExpression) :
  parse v = Return E -> Forall (AllNames clean_name) (nodes E).
Proof.
  unfold parse. destruct (negb (isString v) || negb (truthy v))%bool.
  - intros [= <-]. constructor.
  - destruct v; try (intros [= <-]; constructor);
      (destruct (_parse _ _ s) as [ns| |] eqn:Ep; cbn [bind]; try discriminate;
       intros [= <-]; exact (_parse_names _ _ _ _ Ep)).
Qed.

Lemma parse_names_clean_witness :
  Forall (AllNames clean_name)
         [Node "a" [Node "b c" [Node "d[1]" []]; Node "e" []]].
Proof.
  apply (parse_names_clean (JsString " a .[ b c . d[1] ,e ] ")
                           (Expression [Node "a" [Node "b c" [Node "d[1]" []];
                                                  Node "e" []]])).
  vm_compute. reflexivity.
Defined.

(* ================================================================== *)
(** * The size of the tree *)

Lemma spec_scan_total_length (separator : ascii) (rest : string) :
  forall depth cur,
    list_sum (map String.length (fst (spec_scan separator depth cur rest)))
    <= String.length cur + String.length rest.
Proof.
  induction rest as [|c rest IH]; intros depth cur; cbn [spec_scan].
  - destruct (depth =? 0)%Z; cbn [fst map]; [|cbn; lia].
    rewrite list_sum_cons. pose proof (trim_length cur). cbn. lia.
  - assert (Hgo : forall d,
               list_sum (map String.length
                             (fst (spec_scan separator d (cur ++ String c "") rest)))
               <= String.length cur + String.length (String c rest)).
    { intros d. specialize (IH d (cur ++ String c "")%string).
      rewrite length_app in IH. cbn [String.length] in *. lia. }
    destruct (Ascii.eqb c "["); [apply Hgo|].
    destruct (Ascii.eqb c "]"); [apply Hgo|].
    destruct (Ascii.eqb c separator && (depth =? 0)%Z)%bool; [|apply Hgo].
    specialize (IH depth ""%string).
    destruct (spec_scan separator depth "" rest) as [ts d].
    cbn [fst map] in *. rewrite list_sum_cons.
    pose proof (trim_length cur). cbn [String.length] in *. lia.
Qed.

Lemma forest_size_app (a b : list MoronRelationExpressionNode) :
  forest_size (a ++ b) = forest_size a + forest_size b.
Proof. unfold forest_size. now rewrite map_app, list_sum_app. Qed.

Section ChainSize.
Variable this : MoronRelationExpressionParser.
Variable rec : string -> Outcome (list MoronRelationExpressionNode).
Hypothesis rec_size :
  forall u rel, rec u = Return rel -> forest_size rel <= String.length u.

Lemma array_items_size (us : list string) :
  forall items, array_items rec us = Return items ->
                forest_size items <= list_sum (map String.length us).
Proof.
  induction us as [|u us IH]; intros items; cbn [array_items].
  - intros [= <-]. cbn. lia.
  - destruct (rec u) as [rel| |] eqn:Eu; cbn [bind]; try discriminate.
    destruct (array_items rec us) as [rest| |]; cbn [bind]; try discriminate.
    intros [= <-]. rewrite forest_size_app. cbn [map]. rewrite list_sum_cons.
    pose proof (rec_size u rel Eu). specialize (IH rest eq_refl). lia.
Qed.

Lemma chain_forest_size (ts : list string) :
  forall f, chain_forest this rec ts = Return f ->
            forest_size f <= list_sum (map String.length ts).
Proof.
  induction ts as [|t ts IH]; intros f; cbn [chain_forest].
  - intros [= <-]. cbn. lia.
  - cbn [map]. rewrite list_sum_cons. destruct (isArrayToken t) eqn:Ea.
    + destruct (array_items rec _) as [items| |] eqn:Ei; cbn [bind]; try discriminate.
      destruct (negb _); [discriminate|].
      destruct (chain_forest this rec ts) as [rest| |]; cbn [bind]; try discriminate.
      intros [= <-]. rewrite forest_size_app.
      pose proof (array_items_size _ _ Ei) as Hi.
      pose proof (spec_scan_total_length "," (stripArrayChars t) 0 "") as Hs.
      fold (spec_tokens "," (stripArrayChars t)) in Hs. cbn [String.length] in Hs.
      pose proof (stripArrayChars_length t Ea). specialize (IH rest eq_refl). lia.
    + destruct (Nat.eqb (String.length t) 0) eqn:El; [discriminate|].
      destruct (chain_forest this rec ts) as [rest| |]; cbn [bind]; try discriminate.
      intros [= <-]. apply Nat.eqb_neq in El. specialize (IH rest eq_refl).
      rewrite singleton_size.
      change (node_size (Node t rest)) with (S (forest_size rest)). lia.
Qed.
End ChainSize.

Lemma _parse_size (this : MoronRelationExpressionParser) (fuel : nat) :
  forall s f, _parse fuel this s = Return f -> forest_size f <= String.length s.
Proof.
  induction fuel as [|fuel IH]; intros s f; cbn [_parse]; [discriminate|].
  rewrite parse_body_chain.
  destruct (chain_forest _ _ _) as [g| |] eqn:Ec; cbn [bind]; try discriminate.
  destruct (negb _); [discriminate|]. intros [= <-].
  pose proof (chain_forest_size this _ IH _ g Ec) as Hg.
  pose proof (spec_scan_total_length "." s 0 "") as Hs.
  fold (spec_tokens "." s) in Hs. cbn [String.length] in Hs. lia.
Qed.

(** X4. The expression [parse] returns for a string has no more nodes,
    all depths together, than the string has characters. *)
Theorem parse_size_bound (s : string) (E : MoronRelationExpression) :
  parse (JsString s) = Return E -> size E <= String.length s.
Proof.
  destruct (parse_string_cases s) as [[-> Hp]|[_ Hp]]; rewrite Hp.
  - intros [= <-]. cbn. lia.
  - destruct (_parse _ _ s) as [ns| |] eqn:Ep; cbn [bind]; try discriminate.
    intros [= <-]. exact (_parse_size _ _ _ _ Ep).
Qed.

Lemma parse_size_bound_witness :
  size (Expression [Node "a" [Node "b" [Node "c" []]; Node "d" []]]) <= 9.
Proof.
  apply (parse_size_bound "a.[b.c,d]"). vm_compute. reflexivity.
Defined.

(* ================================================================== *)
(** * A text without separators and brackets *)

Lemma app_empty_r (a : string) : (a ++ "")%string = a.
Proof.
  induction a as [|x a IH]; cbn [append]; [reflexivity | now rewrite IH].
Qed.

Lemma spec_scan_plain (rest : string) :
  has_char "." rest = false ->
  has_char "[" rest = false ->
  has_char "]" rest = false ->
  forall cur, spec_scan "." 0 cur rest = ([trim (cur ++ rest)], 0%Z).
Proof.
  induction rest as [|c rest IH]; intros Hd Ho Hc cur; cbn [spec_scan].
  - cbn [Z.eqb]. now rewrite app_empty_r.
  - cbn [has_char] in *.
    apply orb_false_elim in Hd as [Hd1 Hd2].
    apply orb_false_elim in Ho as [Ho1 Ho2].
    apply orb_false_elim in Hc as [Hc1 Hc2].
    rewrite Ho1, Hc1, Hd1. cbn [andb].
    rewrite (IH Hd2 Ho2 Hc2), app_assoc_s. reflexivity.
Qed.

Lemma trimStart_has_char (c : ascii) (s : string) :
  has_char c s = false -> has_char c (trimStart s) = false.
Proof.
  induction s as [|d s IH]; cbn [trimStart has_char]; [reflexivity|].
  intros H. destruct (isWhiteSpace d); [|exact H].
  apply orb_false_elim in H as [_ H]. now apply IH.
Qed.

Lemma trimEnd_has_char (c : ascii) (s : string) :
  has_char c s = false -> has_char c (trimEnd s) = false.
Proof.
  induction s as [|d s IH]; cbn [trimEnd has_char]; [reflexivity|].
  intros H. apply orb_false_elim in H as [Hd H]. specialize (IH H).
  destruct (trimEnd s) as [|e r].
  - destruct (isWhiteSpace d); cbn [has_char]; [reflexivity|]. now rewrite Hd.
  - cbn [has_char] in *. now rewrite Hd, IH.
Qed.

Lemma no_open_not_array (t : string) :
  has_char "[" t = false -> isArrayToken t = false.
Proof.
  unfold isArrayToken. destruct t as [|d t]; [reflexivity|].
  cbn [has_char]. intros H. apply orb_false_elim in H as [H _].
  cbn [charAt Z.ltb Z.compare Z.to_nat get is_char]. rewrite H.
  now rewrite andb_false_r.
Qed.

(** X5. A string without ".", "[" and "]" is one name: when it has a
    character that is not white space, [parse] returns the single leaf
    named by the trimmed string, commas included; when it is not empty
    and all white space, [parse] throws. *)
Theorem parse_single_name (s : string) :
  has_char "." s = false ->
  has_char "[" s = false ->
  has_char "]" s = false ->
  (trim s <> ""%string ->
   parse (JsString s) = Return (Expression [Node (trim s) []]))
  /\ (s <> ""%string -> trim s = ""%string ->
      parse (JsString s) = Throw (invalidExpression s)).
Proof.
  intros Hd Ho Hc.
  assert (Hbody : s <> ""%string ->
                  parse (JsString s)
                  = (st <- _parseToken (Parser s) (trim s) ([], O) ;;
                     Return (Expression (fst st)))).
  { intros Hne. destruct (parse_string_cases s) as [[He _]|[_ ->]]; [contradiction|].
    cbn [_parse]. rewrite parse_body_spec. unfold spec_tokens, spec_depth.
    rewrite (spec_scan_plain s Hd Ho Hc ""). cbn [fst snd foldM append].
    unfold _parseIterator.
    rewrite (no_open_not_array (trim s)
               (trimEnd_has_char _ _ (trimStart_has_char _ _ Ho))).
    destruct (_parseToken (Parser s) (trim s) ([], O)); reflexivity. }
  split.
  - intros Ht. rewrite Hbody by (intros ->; now apply Ht).
    unfold _parseToken. destruct (trim s); [now contradiction Ht|]. reflexivity.
  - intros Hne Ht. rewrite (Hbody Hne), Ht. reflexivity.
Qed.

Lemma parse_single_name_witness :
  parse (JsString " pets, children ")
  = Return (Expression [Node "pets, children" []])
  /\ parse (JsString "  ") = Throw (invalidExpression "  ").
Proof.
  split.
  - apply (proj1 (parse_single_name " pets, children " eq_refl eq_refl eq_refl)).
    vm_compute. discriminate.
  - apply (proj2 (parse_single_name "  " eq_refl eq_refl eq_refl)).
    + discriminate.
    + reflexivity.
Defined.

(* ================================================================== *)
(** * Array tokens and their content *)

(** X6. A token is an array token exactly when it is its stripped
    content between "[" and "]"; and stripping what was put between
    "[" and "]" gives it back. *)
Theorem array_token_round_trip (t : string) :
  (isArrayToken t = true <-> t = String "[" (stripArrayChars t ++ "]")%string)
  /\ stripArrayChars (String "[" (t ++ "]")%string) = t
  /\ isArrayToken (String "[" (t ++ "]")%string) = true.
Proof.
  split; [split|split].
  - intros H. apply isArrayToken_iff in H as (body & ->).
    now rewrite stripArrayChars_body.
  - intros H. apply isArrayToken_iff. now exists (stripArrayChars t).
  - apply stripArrayChars_body.
  - apply isArrayToken_iff. now exists t.
Qed.

(* ================================================================== *)
(** * Containment: the wildcard, the empty expression, bad arguments *)

Lemma wildcard_loop (A B : MoronRelationExpression) :
  isAllRecursive A = true ->
  isAllRecursive B = false ->
  (forall B', size B' < size B -> isSubExpression_call A B' = Return true) ->
  forall ns, incl ns (nodes B) ->
             isSubExpression_loop isSubExpression_call A B ns = Return true.
Proof.
  intros HA HB Hrec ns. induction ns as [|node ns IH]; intros Hincl;
    cbn [isSubExpression_loop]; [reflexivity|].
  destruct (isRecursive B (name node)
            && (isAllRecursive A || isRecursive A (name node)))%bool eqn:Hs;
    [reflexivity|].
  assert (Hown : relation A (name node) = Some A) by (unfold relation; now rewrite HA).
  rewrite Hown.
  destruct (recursion_decreases A B A node HB (Hincl node (or_introl eq_refl)) Hs Hown)
    as (sub & -> & Hlt).
  cbn [arg_of_relation toExpression bind].
  rewrite (Hrec sub ltac:(lia)). cbn [bind negb].
  apply IH. intros x Hx. apply Hincl. now right.
Qed.

Lemma wildcard_contains (A B : MoronRelationExpression) :
  isAllRecursive A = true -> isSubExpression A (ArgExpression B) = Return true.
Proof.
  intros HA. remember (size B) as k eqn:Hk. revert B Hk.
  induction k as [k IH] using lt_wf_ind. intros B ->.
  rewrite isSubExpression_unfold. unfold isSubExpression_body.
  destruct (isAllRecursive B) eqn:HB; [now rewrite HA|].
  apply wildcard_loop; [exact HA | exact HB | | apply incl_refl].
  intros B' Hlt. exact (IH _ Hlt B' eq_refl).
Qed.

Lemma isSubExpression_of_parsed (A B : MoronRelationExpression)
      (arg : SubExpressionArg) :
  toExpression arg = Return B ->
  isSubExpression A arg = isSubExpression A (ArgExpression B).
Proof. intros H. unfold isSubExpression. now rewrite H. Qed.

(** X7. An all-recursive receiver contains every expression: when
    [A.isAllRecursive()] holds, [A.isSubExpression] returns true for
    every argument that is an expression or parses to one. *)
Theorem wildcard_contains_everything (A B : MoronRelationExpression)
        (arg : SubExpressionArg) :
  toExpression arg = Return B ->
  isAllRecursive A = true ->
  isSubExpression A arg = Return true.
Proof.
  intros Harg HA. rewrite (isSubExpression_of_parsed A B arg Harg).
  now apply wildcard_contains.
Qed.

Lemma wildcard_contains_everything_witness :
  isSubExpression (Expression [Node "*" []])
                  (ArgValue (JsString "a.[b.^, c.d]")) = Return true.
Proof.
  apply (wildcard_contains_everything
           (Expression [Node "*" []])
           (Expression [Node "a" [Node "b" [Node "^" []]; Node "c" [Node "d" []]]])).
  - vm_compute. reflexivity.
  - reflexivity.
Defined.

(** X8. The expression without nodes is contained in every expression,
    and contains no expression but itself: an argument without root
    nodes gives true for every receiver, and a receiver without root
    nodes gives true exactly for the arguments without root nodes. *)
Theorem empty_expression_containment (A B : MoronRelationExpression)
        (arg : SubExpressionArg) :
  toExpression arg = Return B ->
  (nodes B = [] -> isSubExpression A arg = Return true)
  /\ isSubExpression (Expression []) arg
     = Return (Nat.eqb (List.length (nodes B)) 0).
Proof.
  intros Harg. rewrite !(isSubExpression_of_parsed _ B arg Harg).
  rewrite !isSubExpression_unfold. unfold isSubExpression_body. split.
  - intros HB. unfold isAllRecursive. rewrite HB. reflexivity.
  - destruct (isAllRecursive B) eqn:Hall.
    + unfold isAllRecursive in Hall. apply andb_prop in Hall as [Hl _].
      apply Nat.eqb_eq in Hl. rewrite Hl. reflexivity.
    + destruct (nodes B) as [|node ns]; [reflexivity|].
      cbn [isSubExpression_loop]. rewrite andb_false_r. reflexivity.
Qed.

Lemma empty_expression_containment_witness :
  isSubExpression (Expression [Node "a" [Node "b" []]]) (ArgValue JsNull)
  = Return true
  /\ isSubExpression (Expression []) (ArgValue (JsString "a")) = Return false.
Proof.
  split.
  - apply (proj1 (empty_expression_containment
                    (Expression [Node "a" [Node "b" []]]) (Expression [])
                    (ArgValue JsNull) eq_refl)).
    reflexivity.
  - apply (proj2 (empty_expression_containment
                    (Expression []) (Expression [Node "a" []])
                    (ArgValue (JsString "a")) ltac:(vm_compute; reflexivity))).
Defined.

(** X9. [isSubExpression] on a string argument throws the validation
    error of [parse], with that string in the message, exactly when
    [parse] throws on the string, and returns a boolean otherwise; it
    throws nothing of its own. *)
Theorem isSubExpression_string_argument (A : MoronRelationExpression) (s : string) :
  (Invalid s ->
   isSubExpression A (ArgValue (JsString s)) = Throw (invalidExpression s))
  /\ (~ Invalid s ->
      exists b, isSubExpression A (ArgValue (JsString s)) = Return b).
Proof.
  destruct (parse_throws_iff_bad_chain s) as (Hthrow & _ & Hret).
  assert (Hinv : SpecInvalid s <-> Invalid s).
  { unfold SpecInvalid, Invalid. now rewrite (bad_chain_counts s). }
  split.
  - intros H. apply Hinv, Hthrow in H.
    unfold isSubExpression. cbn [toExpression]. now rewrite H.
  - intros H. rewrite <- Hinv in H. apply Hret in H as (E & HE).
    rewrite (isSubExpression_of_parsed A E (ArgValue (JsString s)) HE).
    apply isSubExpression_returns.
Qed.

Lemma isSubExpression_string_argument_witness :
  isSubExpression (Expression [Node "a" []]) (ArgValue (JsString "a.[b"))
  = Throw (invalidExpression "a.[b").
Proof.
  apply (proj1 (isSubExpression_string_argument (Expression [Node "a" []]) "a.[b")).
  split; [discriminate|]. left. vm_compute. discriminate.
Defined.

(* ================================================================== *)
(** * Recursive relations *)

(** X10. Going down a recursive relation leads to an expression on which
    going down the same relation leads nowhere else: when
    [E.isRecursive(n)] holds, [E.relation(n)] is an expression [E2] that
    is again recursive at [n] and whose [relation(n)] is [E2] itself. *)
Theorem recursive_relation_is_fixed (E : MoronRelationExpression) (n : string) :
  isRecursive E n = true ->
  exists E2, relation E n = Some E2
             /\ isRecursive E2 n = true
             /\ relation E2 n = Some E2.
Proof.
  intros Hr. unfold relation at 1. destruct (isAllRecursive E) eqn:Hall.
  - exists E. split; [reflexivity|]. split; [exact Hr|].
    unfold relation. now rewrite Hall.
  - pose proof Hr as Hfirst. unfold isRecursive in Hfirst.
    apply isRecursive_loop_first in Hfirst as (nd & Hnd & Hcaret).
    rewrite (relation_loop_first E _ n nd Hnd), Hr.
    exists (Expression [nd]).
    destruct Hnd as (_ & _ & _ & _ & Hname).
    assert (Hr2 : isRecursive (Expression [nd]) n = true).
    { unfold isRecursive. cbn [nodes isRecursive_loop].
      rewrite Hname, String.eqb_refl. now apply caret_test. }
    split; [reflexivity|]. split; [exact Hr2|].
    unfold relation. destruct (isAllRecursive (Expression [nd])); [reflexivity|].
    cbn [nodes relation_loop]. rewrite Hname, String.eqb_refl. cbn [negb].
    now rewrite Hr2.
Qed.

Lemma recursive_relation_is_fixed_witness :
  exists E2,
    relation (Expression [Node "b" []; Node "a" [Node "^" []]]) "a" = Some E2
    /\ isRecursive E2 "a" = true
    /\ relation E2 "a" = Some E2.
Proof.
  apply (recursive_relation_is_fixed
           (Expression [Node "b" []; Node "a" [Node "^" []]]) "a").
  reflexivity.
Defined.

Lemma AllNames_inv (P : string -> Prop) (m : MoronRelationExpressionNode) :
  AllNames P m -> P (name m) /\ Forall (AllNames P) (children m).
Proof. intros H. destruct H as [n ch Hn Hch]. now split. Qed.

Lemma repetition_loop (n : string) (ch : list MoronRelationExpressionNode)
      (B : MoronRelationExpression) :
  let A := Expression [Node n [Node "^" ch]] in
  isAllRecursive B = false ->
  Forall (AllNames (eq n)) (nodes B) ->
  (forall B', size B' < size B -> Forall (AllNames (eq n)) (nodes B') ->
              isSubExpression_call A B' = Return true) ->
  forall ns, incl ns (nodes B) ->
             isSubExpression_loop isSubExpression_call A B ns = Return true.
Proof.
  intros A HB Hnames Hrec ns.
  assert (HrA : isRecursive A n = true).
  { unfold A, isRecursive. cbn [nodes isRecursive_loop].
    now rewrite String.eqb_refl. }
  assert (HownA : relation A n = Some A).
  { unfold relation. destruct (isAllRecursive A); [reflexivity|].
    unfold A at 2. cbn [nodes relation_loop name]. rewrite String.eqb_refl.
    cbn [negb]. now rewrite HrA. }
  induction ns as [|node ns IH]; intros Hincl; cbn [isSubExpression_loop];
    [reflexivity|].
  assert (Hin : In node (nodes B)) by (apply Hincl; now left).
  assert (Hname : name node = n).
  { rewrite Forall_forall in Hnames.
    now destruct (AllNames_inv _ _ (Hnames node Hin)) as [-> _]. }
  rewrite Hname.
  destruct (isRecursive B n && (isAllRecursive A || isRecursive A n))%bool eqn:Hs;
    [reflexivity|].
  rewrite HownA. rewrite <- Hname in Hs, HownA.
  destruct (recursion_decreases A B A node HB Hin Hs HownA) as (sub & Hsub & Hlt).
  rewrite Hname in Hsub. rewrite Hsub.
  cbn [arg_of_relation toExpression bind].
  assert (Hsubnames : Forall (AllNames (eq n)) (nodes sub)).
  { unfold relation in Hsub. rewrite HB in Hsub.
    apply relation_loop_some in Hsub as (m & Hm & _ & [[_ ->]|[_ ->]]); cbn [nodes].
    - constructor; [|constructor]. rewrite Forall_forall in Hnames. now apply Hnames.
    - rewrite Forall_forall in Hnames.
      now destruct (AllNames_inv _ _ (Hnames m Hm)) as [_ H]. }
  rewrite (Hrec sub ltac:(lia) Hsubnames). cbn [bind negb].
  apply IH. intros x Hx. apply Hincl. now right.
Qed.

(** X11. A relation that is recursive contains the relation repeated to
    any depth: the expression of one root named [n] whose only child is
    "^" contains every expression all of whose nodes are named [n]. *)
Theorem recursive_contains_repetition (n : string)
        (ch : list MoronRelationExpressionNode) (B : MoronRelationExpression) :
  Forall (AllNames (eq n)) (nodes B) ->
  isSubExpression (Expression [Node n [Node "^" ch]]) (ArgExpression B)
  = Return true.
Proof.
  remember (size B) as k eqn:Hk. revert B Hk.
  induction k as [k IH] using lt_wf_ind. intros B -> Hnames.
  rewrite isSubExpression_unfold. unfold isSubExpression_body.
  destruct (isAllRecursive B) eqn:HB.
  - unfold isAllRecursive in HB. apply andb_prop in HB as [_ Hstar].
    destruct (nodes B) as [|m ms]; [discriminate|].
    cbn [nth_error name_is] in Hstar. apply String.eqb_eq in Hstar.
    inversion Hnames as [|? ? Hm _]; subst.
    destruct (AllNames_inv _ _ Hm) as [Hn _]. rewrite Hstar in Hn. subst n.
    reflexivity.
  - apply repetition_loop; [exact HB | exact Hnames | | apply incl_refl].
    intros B' Hlt Hn'. exact (IH _ Hlt B' eq_refl Hn').
Qed.

Lemma recursive_contains_repetition_witness :
  isSubExpression (Expression [Node "a" [Node "^" []]])
                  (ArgExpression
                     (Expression [Node "a" [Node "a" [Node "a" []]; Node "a" []]]))
  = Return true.
Proof.
  apply (recursive_contains_repetition "a" []).
  repeat (constructor; try reflexivity).
Defined.

(* ================================================================== *)
(** * A list of relation names *)

Lemma leaves_not_recursive (ns : list MoronRelationExpressionNode) (n : string) :
  (forall m, In m ns -> children m = []) -> isRecursive_loop ns n = false.
Proof.
  induction ns as [|x ns IH]; intros H; cbn [isRecursive_loop]; [reflexivity|].
  destruct (String.eqb (name x) n).
  - now rewrite (H x (or_introl eq_refl)).
  - apply IH. intros m Hm. apply H. now right.
Qed.

Lemma flat_loop (A B : MoronRelationExpression) :
  isAllRecursive B = false ->
  (forall m, In m (nodes B) -> children m = []) ->
  forall ns, incl ns (nodes B) ->
             isSubExpression_loop isSubExpression_call A B ns
             = Return (forallb (fun m => has_relation A (name m)) ns).
Proof.
  intros HB Hleaf ns. induction ns as [|node ns IH]; intros Hincl;
    cbn [isSubExpression_loop forallb]; [reflexivity|].
  assert (Hr : isRecursive B (name node) = false)
    by (apply leaves_not_recursive; exact Hleaf).
  rewrite Hr. cbn [andb]. unfold has_relation at 1.
  destruct (relation A (name node)) as [own|] eqn:Hown; [|reflexivity].
  destruct (relation B (name node)) as [sub|] eqn:Hsub.
  2:{ unfold relation in Hsub. rewrite HB in Hsub.
      apply relation_loop_in in Hsub; [contradiction|]. apply Hincl. now left. }
  assert (Hempty : sub = Expression []).
  { unfold relation in Hsub. rewrite HB in Hsub.
    apply relation_loop_some in Hsub as (m & Hm & _ & [[Hr' _]|[_ ->]]).
    - congruence.
    - now rewrite (Hleaf m Hm). }
  subst sub. cbn [arg_of_relation toExpression bind].
  unfold isSubExpression_call at 1. rewrite isSubExpression_unfold.
  unfold isSubExpression_body. cbn [isAllRecursive nodes List.length Nat.eqb andb
                                     isSubExpression_loop bind negb].
  apply IH. intros x Hx. apply Hincl. now right.
Qed.

(** X12. An argument that is a list of relation names without children,
    and not the wildcard alone, is contained exactly when every one of
    the names is a relation of the receiver, that is when [relation]
    does not return null for it. *)
Theorem flat_list_containment (A B : MoronRelationExpression) :
  isAllRecursive B = false ->
  (forall m, In m (nodes B) -> children m = []) ->
  isSubExpression A (ArgExpression B)
  = Return (forallb (fun m => has_relation A (name m)) (nodes B)).
Proof.
  intros HB Hleaf. rewrite isSubExpression_unfold. unfold isSubExpression_body.
  rewrite HB. apply flat_loop; [exact HB | exact Hleaf | apply incl_refl].
Qed.

Lemma flat_list_containment_witness :
  let A := Expression [Node "a" [Node "x" []]; Node "b" []] in
  isSubExpression A (ArgExpression (Expression [Node "b" []; Node "a" []]))
  = Return true
  /\ isSubExpression A (ArgExpression (Expression [Node "b" []; Node "x" []]))
     = Return false.
Proof.
  cbv zeta. split.
  - apply (flat_list_containment
             (Expression [Node "a" [Node "x" []]; Node "b" []])
             (Expression [Node "b" []; Node "a" []])); [reflexivity|].
    intros m [<-|[<-|[]]]; reflexivity.
  - apply (flat_list_containment
             (Expression [Node "a" [Node "x" []]; Node "b" []])
             (Expression [Node "b" []; Node "x" []])); [reflexivity|].
    intros m [<-|[<-|[]]]; reflexivity.
Defined.

(* ================================================================== *)
(** * A name before a dot *)

Lemma spec_scan_prefix (t rest : string) :
  has_char "." t = false ->
  has_char "[" t = false ->
  has_char "]" t = false ->
  forall cur,
    spec_scan "." 0 cur (t ++ String "." rest)
    = (trim (cur ++ t) :: fst (spec_scan "." 0 "" rest),
       snd (spec_scan "." 0 "" rest)).
Proof.
  induction t as [|c t IH]; intros Hd Ho Hc cur; cbn [append spec_scan].
  - cbn [Ascii.eqb Bool.eqb andb Z.eqb]. rewrite app_empty_r.
    destruct (spec_scan "." 0 "" rest); reflexivity.
  - cbn [has_char] in *.
    apply orb_false_elim in Hd as [Hd1 Hd2].
    apply orb_false_elim in Ho as [Ho1 Ho2].
    apply orb_false_elim in Hc as [Hc1 Hc2].
    rewrite Ho1, Hc1, Hd1. cbn [andb].
    rewrite (IH Hd2 Ho2 Hc2), app_assoc_s. reflexivity.
Qed.

Lemma balance_no_bracket (t : string) :
  has_char "[" t = false -> has_char "]" t = false -> balance t = 0%Z.
Proof.
  induction t as [|c t IH]; cbn [has_char balance]; [reflexivity|].
  intros Ho Hc.
  apply orb_false_elim in Ho as [Ho1 Ho2].
  apply orb_false_elim in Hc as [Hc1 Hc2].
  unfold bracket_weight. rewrite Ho1, Hc1, (IH Ho2 Hc2). reflexivity.
Qed.

(** The parser object matters for the error thrown only. *)
Lemma array_items_same (rec1 rec2 : string -> Outcome (list MoronRelationExpressionNode))
      (us : list string) :
  (forall u, In u us -> same_but_error (rec1 u) (rec2 u)) ->
  same_but_error (array_items rec1 us) (array_items rec2 us).
Proof.
  induction us as [|u us IH]; intros H; cbn [array_items]; [reflexivity|].
  pose proof (H u (or_introl eq_refl)) as Hu.
  specialize (IH (fun v Hv => H v (or_intror Hv))).
  destruct (rec1 u), (rec2 u); cbn in Hu |- *; try tauto. subst.
  destruct (array_items rec1 us), (array_items rec2 us); cbn in IH |- *;
    try tauto. now subst.
Qed.

Lemma chain_forest_same (this1 this2 : MoronRelationExpressionParser)
      (rec1 rec2 : string -> Outcome (list MoronRelationExpressionNode))
      (ts : list string) :
  (forall t u, In t ts -> isArrayToken t = true ->
               In u (spec_tokens "," (stripArrayChars t)) ->
               same_but_error (rec1 u) (rec2 u)) ->
  same_but_error (chain_forest this1 rec1 ts) (chain_forest this2 rec2 ts).
Proof.
  induction ts as [|t ts IH]; intros H; cbn [chain_forest]; [reflexivity|].
  specialize (IH (fun t0 u Ht0 => H t0 u (or_intror Ht0))).
  destruct (isArrayToken t) eqn:Ea.
  - pose proof (array_items_same rec1 rec2 _
                  (fun u Hu => H t u (or_introl eq_refl) Ea Hu)) as Hi.
    destruct (array_items rec1 _), (array_items rec2 _); cbn in Hi |- *;
      try tauto. subst.
    destruct (negb _); [exact I|].
    destruct (chain_forest this1 rec1 ts), (chain_forest this2 rec2 ts);
      cbn in IH |- *; try tauto. now subst.
  - destruct (Nat.eqb (String.length t) 0); [exact I|].
    destruct (chain_forest this1 rec1 ts), (chain_forest this2 rec2 ts);
      cbn in IH |- *; try tauto. now subst.
Qed.

Lemma _parse_same (this1 this2 : MoronRelationExpressionParser) (fuel : nat) :
  forall s, same_but_error (_parse fuel this1 s) (_parse fuel this2 s).
Proof.
  induction fuel as [|fuel IH]; intros s; cbn [_parse]; [exact I|].
  rewrite !parse_body_chain.
  pose proof (chain_forest_same this1 this2 (_parse fuel this1) (_parse fuel this2)
                (spec_tokens "." s) (fun t u _ _ _ => IH u)) as H.
  destruct (chain_forest this1 _ _), (chain_forest this2 _ _); cbn in H |- *;
    try tauto. subst.
  destruct (negb _); [exact I | reflexivity].
Qed.

(** [_parse] on a name, a dot and a text is one node with that name over
    [_parse] of the text. *)
Lemma _parse_prefix (this : MoronRelationExpressionParser) (t rest : string) :
  has_char "." t = false ->
  has_char "[" t = false ->
  has_char "]" t = false ->
  trim t <> ""%string ->
  let s := (t ++ String "." rest)%string in
  _parse (S (String.length s)) this s
  = (f <- _parse (S (String.length rest)) this rest ;;
     Return [Node (trim t) f]).
Proof.
  intros Hd Ho Hc Ht s. subst s.
  rewrite (_parse_chain this (t ++ String "." rest)), (_parse_chain this rest).
  unfold spec_tokens at 1. rewrite (spec_scan_prefix t rest Hd Ho Hc "").
  cbn [fst append]. fold (spec_tokens "." rest). cbn [chain_forest].
  rewrite (no_open_not_array (trim t)
             (trimEnd_has_char _ _ (trimStart_has_char _ _ Ho))).
  assert (Hlen : Nat.eqb (String.length (trim t)) 0 = false).
  { destruct (trim t); [now contradiction Ht | reflexivity]. }
  rewrite Hlen.
  assert (Hbal : balance (t ++ String "." rest) = balance rest).
  { rewrite balance_app. cbn [balance]. rewrite (balance_no_bracket t Ho Hc).
    change (bracket_weight ".") with 0%Z. lia. }
  rewrite Hbal.
  destruct (chain_forest this _ (spec_tokens "." rest)) as [f| |]; cbn [bind];
    try reflexivity.
  destruct (negb _); reflexivity.
Qed.

Lemma parse_prefix_outcome (t rest : string) :
  has_char "." t = false ->
  has_char "[" t = false ->
  has_char "]" t = false ->
  trim t <> ""%string ->
  rest <> ""%string ->
  let this := Parser (t ++ String "." rest) in
  parse (JsString (t ++ String "." rest))
  = (f <- _parse (S (String.length rest)) this rest ;;
     Return (Expression [Node (trim t) f]))
  /\ same_but_error (_parse (S (String.length rest)) this rest)
                    (_parse (S (String.length rest)) (Parser rest) rest)
  /\ parse (JsString rest)
     = (f <- _parse (S (String.length rest)) (Parser rest) rest ;;
        Return (Expression f)).
Proof.
  intros Hd Ho Hc Ht Hrest this.
  assert (Hs : (t ++ String "." rest)%string <> ""%string) by (destruct t; discriminate).
  destruct (parse_string_cases (t ++ String "." rest)) as [[He _]|[_ Hps]];
    [contradiction|].
  destruct (parse_string_cases rest) as [[He _]|[_ Hpr]]; [contradiction|].
  split; [|split; [apply _parse_same | exact Hpr]].
  rewrite Hps. fold this. rewrite (_parse_prefix this t rest Hd Ho Hc Ht).
  destruct (_parse _ this rest); reflexivity.
Qed.

Lemma parse_prefix_returns (t rest : string) (E2 : MoronRelationExpression) :
  has_char "." t = false ->
  has_char "[" t = false ->
  has_char "]" t = false ->
  trim t <> ""%string ->
  rest <> ""%string ->
  parse (JsString rest) = Return E2 ->
  parse (JsString (t ++ String "." rest))
  = Return (Expression [Node (trim t) (nodes E2)]).
Proof.
  intros Hd Ho Hc Ht Hrest Hp.
  destruct (parse_prefix_outcome t rest Hd Ho Hc Ht Hrest) as (-> & Hsame & Hpr).
  rewrite Hpr in Hp.
  destruct (_parse _ (Parser (t ++ String "." rest)) rest) as [f|e1|];
    destruct (_parse _ (Parser rest) rest) as [g|e2|];
    cbn in Hsame; try contradiction; cbn [bind] in *; try discriminate.
  subst g. now injection Hp as <-.
Qed.

(** X13. A name, a dot and a text parse to one root with that name whose
    children are the roots of the text parsed alone: for a name without
    ".", "[" and "]" that is not all white space and a text that is not
    empty, [parse(name + "." + text)] returns that tree when
    [parse(text)] returns, and throws, with the whole string in the
    message, when [parse(text)] throws. *)
Theorem parse_name_dot_text (t rest : string) :
  has_char "." t = false ->
  has_char "[" t = false ->
  has_char "]" t = false ->
  trim t <> ""%string ->
  rest <> ""%string ->
  (forall E2, parse (JsString rest) = Return E2 ->
              parse (JsString (t ++ String "." rest))
              = Return (Expression [Node (trim t) (nodes E2)]))
  /\ (forall e, parse (JsString rest) = Throw e ->
                parse (JsString (t ++ String "." rest))
                = Throw (invalidExpression (t ++ String "." rest))).
Proof.
  intros Hd Ho Hc Ht Hrest. split.
  - intros E2. now apply parse_prefix_returns.
  - intros e Hp.
    destruct (parse_prefix_outcome t rest Hd Ho Hc Ht Hrest) as (-> & Hsame & Hpr).
    rewrite Hpr in Hp.
    destruct (_parse _ (Parser (t ++ String "." rest)) rest) as [f|e1|] eqn:E1;
      destruct (_parse _ (Parser rest) rest) as [g|e2|];
      cbn in Hsame; try contradiction; cbn [bind] in *; try discriminate.
    destruct (_parse_throw _ _ _ _ E1) as [-> _]. reflexivity.
Qed.

Lemma parse_name_dot_text_witness :
  parse (JsString " children .[movies.actors, pets]")
  = Return (Expression [Node "children"
                          [Node "movies" [Node "actors" []]; Node "pets" []]])
  /\ parse (JsString "a.b..c") = Throw (invalidExpression "a.b..c").
Proof.
  split.
  - apply (proj1 (parse_name_dot_text " children " "[movies.actors, pets]"
                    eq_refl eq_refl eq_refl
                    ltac:(vm_compute; discriminate) ltac:(discriminate))
                 (Expression [Node "movies" [Node "actors" []]; Node "pets" []])).
    vm_compute. reflexivity.
  - apply (proj2 (parse_name_dot_text "a" "b..c" eq_refl eq_refl eq_refl
                    ltac:(vm_compute; discriminate) ltac:(discriminate))
                 (invalidExpression "b..c")).
    vm_compute. reflexivity.
Defined.


